(** * tcommit: the placeholder-substitution template engine

    A shallow embedding of [internal/core/template] (the synchronous
    node-tree engine: [ParseString], [parseToken], [findNextTemplate],
    [VarNode.WriteTo], [TextNode.WriteTo], [Template.Execute],
    [Template.ExecuteTo]) and the properties of it that the specification
    states.

    Go strings are byte sequences; they are modelled by [string], whose
    characters are the 256 values of [ascii]. *)

From Stdlib Require Import String Ascii List Arith Lia Bool.
From Equations Require Import Equations.
From stdpp Require Import gmap strings.

Import ListNotations.
Open Scope string_scope.
Open Scope nat_scope.
Open Scope list_scope.

(** ** Slices and the functions of Go's [strings] package that the engine calls *)

Module GoStrings.

(** [s[n:]]; Go panics when [n > len(s)], every use below is in range. *)
Fixpoint drop (n : nat) (s : string) : string :=
  match n, s with
  | 0, _ => s
  | S n', String _ s' => drop n' s'
  | S _, EmptyString => EmptyString
  end.

(** [s[:n]] *)
Fixpoint take (n : nat) (s : string) : string :=
  match n, s with
  | 0, _ => EmptyString
  | S n', String c s' => String c (take n' s')
  | S _, EmptyString => EmptyString
  end.

(** [s[lo:hi]] *)
Definition slice (s : string) (lo hi : nat) : string := take (hi - lo) (drop lo s).

(** [strings.HasPrefix(s, prefix)] *)
Definition HasPrefix (s prefix : string) : bool := String.prefix prefix s.

(** [strings.Index(s, substr)]: the byte offset of the first occurrence of
    [substr] in [s]; Go's [-1] is [None]. *)
Fixpoint Index (s substr : string) : option nat :=
  if HasPrefix s substr then Some 0
  else match s with
       | EmptyString => None
       | String _ s' => option_map S (Index s' substr)
       end.

(** [strings.Split(s, sep)] for a non-empty [sep] (the engine only splits on
    ["|"]): cut at every occurrence of [sep], left to right. The number of
    cuts is bounded by the length of [s], which is the recursion bound. *)
Fixpoint genSplit (n : nat) (s sep : string) : list string :=
  match n with
  | 0 => [s]
  | S n' =>
      match Index s sep with
      | None => [s]
      | Some m => take m s :: genSplit n' (drop (m + String.length sep) s) sep
      end
  end.

Definition Split (s sep : string) : list string := genSplit (String.length s) s sep.

(** *** [strings.TrimSpace]

    [TrimSpace] removes every leading and trailing code point for which
    [unicode.IsSpace] holds. In UTF-8 these are the six ASCII bytes of
    [asciiSpace] and the two- and three-byte encodings of U+0085, U+00A0,
    U+1680, U+2000..U+200A, U+2028, U+2029, U+202F, U+205F and U+3000. A
    byte that starts no valid encoding decodes to U+FFFD, which is not a
    space, so trimming stops there. *)

(** ['\t', '\n', '\v', '\f', '\r', ' '] *)
Definition asciiSpace (c : ascii) : bool :=
  let n := nat_of_ascii c in
  ((9 <=? n) && (n <=? 13)) || (n =? 32).

(** U+0085 is [C2 85], U+00A0 is [C2 A0]. *)
Definition isSpace2 (c1 c2 : ascii) : bool :=
  (nat_of_ascii c1 =? 194) &&
  ((nat_of_ascii c2 =? 133) || (nat_of_ascii c2 =? 160)).

(** U+1680 is [E1 9A 80]; U+2000..U+200A are [E2 80 80]..[E2 80 8A];
    U+2028, U+2029 and U+202F are [E2 80 A8], [E2 80 A9] and [E2 80 AF];
    U+205F is [E2 81 9F]; U+3000 is [E3 80 80]. *)
Definition isSpace3 (c1 c2 c3 : ascii) : bool :=
  let n1 := nat_of_ascii c1 in
  let n2 := nat_of_ascii c2 in
  let n3 := nat_of_ascii c3 in
  ((n1 =? 225) && (n2 =? 154) && (n3 =? 128)) ||
  ((n1 =? 226) && (n2 =? 128) &&
     (((128 <=? n3) && (n3 <=? 138)) || (n3 =? 168) || (n3 =? 169) || (n3 =? 175))) ||
  ((n1 =? 226) && (n2 =? 129) && (n3 =? 159)) ||
  ((n1 =? 227) && (n2 =? 128) && (n3 =? 128)).

(** [strings.TrimLeftFunc(s, unicode.IsSpace)] *)
Fixpoint TrimLeftSpace (s : string) : string :=
  match s with
  | String c1 s1 =>
      if asciiSpace c1 then TrimLeftSpace s1
      else match s1 with
           | String c2 s2 =>
               if isSpace2 c1 c2 then TrimLeftSpace s2
               else match s2 with
                    | String c3 s3 =>
                        if isSpace3 c1 c2 c3 then TrimLeftSpace s3 else s
                    | EmptyString => s
                    end
           | EmptyString => s
           end
  | EmptyString => s
  end.

(** The same scan on the reversed string: the bytes of a rune arrive last
    byte first. *)
Fixpoint trimSpaceRev (s : string) : string :=
  match s with
  | String c1 s1 =>
      if asciiSpace c1 then trimSpaceRev s1
      else match s1 with
           | String c2 s2 =>
               if isSpace2 c2 c1 then trimSpaceRev s2
               else match s2 with
                    | String c3 s3 =>
                        if isSpace3 c3 c2 c1 then trimSpaceRev s3 else s
                    | EmptyString => s
                    end
           | EmptyString => s
           end
  | EmptyString => s
  end.

Fixpoint rev (s : string) : string :=
  match s with
  | EmptyString => EmptyString
  | String c s' => rev s' +:+ String c EmptyString
  end.

(** [strings.TrimRightFunc(s, unicode.IsSpace)] *)
Definition TrimRightSpace (s : string) : string := rev (trimSpaceRev (rev s)).

Definition TrimSpace (s : string) : string := TrimRightSpace (TrimLeftSpace s).

End GoStrings.

Import GoStrings.

(** ** errors.go *)

(** Go builds the three failures with [fmt.Errorf("%w ...")] around the
    sentinels [ErrInvalidTokenSyntax], [ErrNoReplacement] and
    [ErrInvalidValue]; an error is modelled by its sentinel (the
    constructor) and the values formatted into it. [WriterError] stands for
    whatever error the sink's [Write] returns. *)
Inductive error : Type :=
  | ErrInvalidTokenSyntax (token : string)
  | ErrNoReplacement (key : string)
  | ErrInvalidValue (key val : string) (choices : list string)
  | WriterError (msg : string).

Definition NewNoReplacementError (key : string) : error := ErrNoReplacement key.

Definition NewInvalidValueError (val key : string) (choices : list string) : error :=
  ErrInvalidValue key val choices.

Definition NewInvalidTokenSyntaxError (token : string) : error :=
  ErrInvalidTokenSyntax token.

(** ** The sink: [io.Writer] through [io.WriteString] *)

(** [WriteString w s] is the state of the sink after [io.WriteString(w, s)]
    together with the error it returned ([None] is Go's [nil]). *)
Class Writer (W : Type) := WriteString : W -> string -> W * option error.

(** [strings.Builder], the sink of [Execute]: writes append and never fail. *)
Record Builder := mkBuilder { Builder_String : string }.

#[export] Instance Builder_Writer : Writer Builder :=
  fun b s => (mkBuilder (Builder_String b +:+ s), None).

(** [bytes.Buffer], the sink the command line and the tests hand to
    [ExecuteTo]. *)
Record Buffer := mkBuffer { Buffer_String : string }.

#[export] Instance Buffer_Writer : Writer Buffer :=
  fun b s => (mkBuffer (Buffer_String b +:+ s), None).

(** A sink that takes [room] more bytes and then fails, keeping what fitted
    (a short write). *)
Record LimitedWriter := mkLimited { written : string; room : nat }.

#[export] Instance LimitedWriter_Writer : Writer LimitedWriter :=
  fun w s =>
    if String.length s <=? room w
    then (mkLimited (written w +:+ s) (room w - String.length s), None)
    else (mkLimited (written w +:+ take (room w) s) 0, Some (WriterError "short write")).

(** ** replacer.go *)

Record Replacer := ReplacerFunc { Get : string -> string * bool }.

(** [v, ok := m[key]]: a missing key reads as the zero value [""]. *)
Definition ReplacerFuncFromMap (m : gmap string string) : Replacer :=
  ReplacerFunc (fun key =>
    match m !! key with
    | Some v => (v, true)
    | None => ("", false)
    end).

(** ** text_node.go, var_node.go *)

Record TextNode := mkTextNode { Text : string }.

Record VarNode := mkVarNode {
  Key : string;
  Choices : list string;
  Default : string;
  HasDef : bool
}.

(** The two implementations of the interface [Node]. *)
Inductive Node : Type :=
  | NText (t : TextNode)
  | NVar (v : VarNode).

Definition TextNode_WriteTo {W} `{Writer W} (t : TextNode) (w : W) (r : Replacer)
  : W * option error :=
  WriteString w (Text t).

Fixpoint isValidChoice_loop (choices : list string) (val : string) : bool :=
  match choices with
  | [] => false
  | c :: rest => if String.eqb c val then true else isValidChoice_loop rest val
  end.

Definition isValidChoice (v : VarNode) (val : string) : bool :=
  isValidChoice_loop (Choices v) val.

Definition VarNode_WriteTo {W} `{Writer W} (v : VarNode) (w : W) (r : Replacer)
  : W * option error :=
  let '(val, found) := Get r (Key v) in
  (* if !found { if v.HasDef { val = v.Default } else { return ... } } *)
  let resolved :=
    if negb found
    then if HasDef v then inl (Default v) else inr (NewNoReplacementError (Key v))
    else inl val in
  match resolved with
  | inr err => (w, Some err)
  | inl val =>
      if (0 <? length (Choices v)) && found && negb (isValidChoice v val)
      then (w, Some (NewInvalidValueError val (Key v) (Choices v)))
      else WriteString w val
  end.

Definition WriteTo {W} `{Writer W} (n : Node) (w : W) (r : Replacer) : W * option error :=
  match n with
  | NText t => TextNode_WriteTo t w r
  | NVar v => VarNode_WriteTo v w r
  end.

(** ** template.go *)

Definition openMarker : string := "{{".
Definition closeMarker : string := "}}".
Definition varPrefix : string := ".".
Definition choiceSep : string := ":".
Definition choiceDelim : string := "|".
Definition defPrefix : string := "@".

Record Template := mkTemplate { Nodes : list Node }.

(** [findNextTemplate(data, startPos)] returns [(start, end, found)]. *)
Definition findNextTemplate (data : string) (startPos : nat) : nat * nat * bool :=
  match Index (drop startPos data) openMarker with
  | None => (0, 0, false)
  | Some openPos =>
      let openPos := openPos + startPos in
      match Index (drop (openPos + String.length openMarker) data) closeMarker with
      | None => (0, 0, false)
      | Some closePos =>
          let closePos := closePos + (openPos + String.length openMarker) in
          (openPos, closePos + String.length closeMarker, true)
      end
  end.

(** The loop over [parts] in [parseToken]; its state is [(def, hasDef, choices)]. *)
Definition parseToken_part (st : string * bool * list string) (p : string)
  : string * bool * list string :=
  let '(def, hasDef, choices) := st in
  let p := TrimSpace p in
  if HasPrefix p defPrefix
  then (drop (String.length defPrefix) p, true, choices)
  else (def, hasDef, choices ++ [p]).

(** [parseToken(token)] returns [(Node, error)], and a non-nil node exactly
    when the error is nil: [inl node] is [(node, nil)], [inr err] is
    [(nil, err)]. *)
Definition parseToken (token : string) : Node + error :=
  let t := TrimSpace token in
  if negb (HasPrefix t varPrefix)
  then inr (NewInvalidTokenSyntaxError token)
  else
    let body := drop (String.length varPrefix) t in
    match Index body choiceSep with
    | Some idx =>
        let key := TrimSpace (take idx body) in
        let rest := drop (idx + String.length choiceSep) body in
        let parts := Split rest choiceDelim in
        let '(def, hasDef, choices) := fold_left parseToken_part parts ("", false, []) in
        inl (NVar (mkVarNode key choices def hasDef))
    | None =>
        let key := TrimSpace body in
        inl (NVar (mkVarNode key [] "" false))
    end.

(** *** Positions returned by the scanner *)

Lemma length_drop (n : nat) (s : string) :
  String.length (drop n s) = String.length s - n.
Proof.
  revert s. induction n as [|n IH]; intros [|c s]; simpl; auto.
Qed.

Lemma HasPrefix_length (s p : string) :
  HasPrefix s p = true -> String.length p <= String.length s.
Proof.
  unfold HasPrefix. revert s. induction p as [|c p IH]; intros [|d s]; simpl; try lia.
  destruct (Ascii.ascii_dec c d); [|discriminate].
  intros H. apply IH in H. lia.
Qed.

Lemma Index_nil (sep : string) :
  Index "" sep = if HasPrefix "" sep then Some 0 else None.
Proof. reflexivity. Qed.

Lemma Index_cons (c : ascii) (s sep : string) :
  Index (String c s) sep =
  if HasPrefix (String c s) sep then Some 0 else option_map S (Index s sep).
Proof. reflexivity. Qed.

Lemma Index_bound (s sep : string) (k : nat) :
  Index s sep = Some k -> k + String.length sep <= String.length s.
Proof.
  revert k. induction s as [|c s IH]; intros k.
  - rewrite Index_nil. destruct (HasPrefix "" sep) eqn:E; [|discriminate].
    intros [= <-]. apply HasPrefix_length in E. simpl in *. lia.
  - rewrite Index_cons. destruct (HasPrefix (String c s) sep) eqn:E.
    + intros [= <-]. apply HasPrefix_length in E. simpl in *. lia.
    + destruct (Index s sep) as [j|]; simpl; [|discriminate].
      intros [= <-]. specialize (IH j eq_refl). lia.
Qed.

Lemma findNextTemplate_range (data : string) (pos start end_ : nat) :
  findNextTemplate data pos = (start, end_, true) ->
  pos <= start /\ start + 4 <= end_ /\ end_ <= String.length data.
Proof.
  unfold findNextTemplate.
  destruct (Index (drop pos data) openMarker) as [o|] eqn:Eo; [|discriminate].
  destruct (Index (drop (o + pos + String.length openMarker) data) closeMarker)
    as [c|] eqn:Ec; [|discriminate].
  intros [= <- <-].
  apply Index_bound in Ec. rewrite length_drop in Ec. simpl in *. lia.
Qed.

Definition inspect {A : Type} (a : A) : { b : A | a = b } := exist _ a eq_refl.

(** The [for] loop of [ParseString]; its state is [pos] and [nodes]. Every
    turn that does not leave the loop moves [pos] to the end of a marker,
    past its four bytes of delimiters. *)
Equations? ParseString_loop (data : string) (pos : nat) (nodes : list Node)
  : option Template * option error by wf (String.length data - pos) lt :=
ParseString_loop data pos nodes with inspect (findNextTemplate data pos) := {
  | exist _ (_, _, false) _ =>
      (* No more templates, add remaining text if any *)
      let nodes :=
        if 0 <? String.length (drop pos data)
        then nodes ++ [NText (mkTextNode (drop pos data))]
        else nodes in
      (Some (mkTemplate nodes), None)
  | exist _ (start, end_, true) Hfound =>
      (* Add text before template if any *)
      let nodes :=
        if pos <? start
        then nodes ++ [NText (mkTextNode (slice data pos start))]
        else nodes in
      let token :=
        slice data (start + String.length openMarker) (end_ - String.length closeMarker) in
      match parseToken token with
      | inr err => (None, Some err)
      | inl node => ParseString_loop data end_ (nodes ++ [node])
      end }.
Proof.
  apply findNextTemplate_range in Hfound. lia.
Qed.

(** [ParseString(data)] returns a [Template] pointer and an error. *)
Definition ParseString (data : string) : option Template * option error :=
  ParseString_loop data 0 [].

(** [Template.Execute(r)] returns [(string, error)]; [out] is the
    [strings.Builder]. *)
Fixpoint Execute_loop (nodes : list Node) (out : Builder) (r : Replacer)
  : string * option error :=
  match nodes with
  | [] => (Builder_String out, None)
  | node :: rest =>
      match WriteTo node out r with
      | (_, Some err) => ("", Some err)
      | (out, None) => Execute_loop rest out r
      end
  end.

Definition Execute (t : Template) (r : Replacer) : string * option error :=
  Execute_loop (Nodes t) (mkBuilder "") r.

(** [Template.ExecuteTo(w, r)] returns the error; the sink is threaded
    through. *)
Fixpoint ExecuteTo_loop {W} `{Writer W} (nodes : list Node) (w : W) (r : Replacer)
  : W * option error :=
  match nodes with
  | [] => (w, None)
  | node :: rest =>
      match WriteTo node w r with
      | (w, Some err) => (w, Some err)
      | (w, None) => ExecuteTo_loop rest w r
      end
  end.

Definition ExecuteTo {W} `{Writer W} (t : Template) (w : W) (r : Replacer)
  : W * option error :=
  ExecuteTo_loop (Nodes t) w r.


(** ** The scanner on its own *)

(** The marker bodies that the loop of [ParseString] meets from [pos] on
    when no token is rejected: the [token] of every turn, in order. *)
Equations? markerBodies (data : string) (pos : nat) : list string
  by wf (String.length data - pos) lt :=
markerBodies data pos with inspect (findNextTemplate data pos) := {
  | exist _ (_, _, false) _ => []
  | exist _ (start, end_, true) Hfound =>
      slice data (start + String.length openMarker) (end_ - String.length closeMarker)
        :: markerBodies data end_ }.
Proof.
  apply findNextTemplate_range in Hfound. lia.
Qed.

(** A marker body is well formed when, trimmed, it starts with the sigil. *)
Definition hasSigil (token : string) : bool := HasPrefix (TrimSpace token) varPrefix.

(** The scan position with which the loop of [ParseString] leaves when no
    token is rejected: every turn moves [pos] to the end of the marker
    found, and the loop leaves at the first [pos] from which none is
    found. The final literal is [data[pos:]] for that [pos]. *)
Equations? scanEnd (data : string) (pos : nat) : nat
  by wf (String.length data - pos) lt :=
scanEnd data pos with inspect (findNextTemplate data pos) := {
  | exist _ (_, _, false) _ => pos
  | exist _ (_, end_, true) Hfound => scanEnd data end_ }.
Proof.
  apply findNextTemplate_range in Hfound. lia.
Qed.

(** ** The vocabulary of the specification *)

(** A trimmed part that starts with the default sigil. *)
Definition isDefaultPart (part : string) : bool := HasPrefix part defPrefix.

(** What a variable node contributes: a value handed to the sink, or a
    failure. *)
Inductive outcome : Type :=
  | Emit (value : string)
  | Fail (err : error).

(** The resolution algorithm as the specification words it (4.3, steps 1 to
    5): the Replacer is asked for the key; a found value must be a member of
    a non-empty allowed-values list; a key that is not found falls back to
    the default, unchecked, and fails without one. *)
Inductive SpecResolve (v : VarNode) (r : Replacer) : outcome -> Prop :=
  | Resolve_invalid (val : string) :
      Get r (Key v) = (val, true) ->
      Choices v <> [] ->
      ~ In val (Choices v) ->
      SpecResolve v r (Fail (ErrInvalidValue (Key v) val (Choices v)))
  | Resolve_default (zero : string) :
      Get r (Key v) = (zero, false) ->
      HasDef v = true ->
      SpecResolve v r (Emit (Default v))
  | Resolve_missing (zero : string) :
      Get r (Key v) = (zero, false) ->
      HasDef v = false ->
      SpecResolve v r (Fail (ErrNoReplacement (Key v)))
  | Resolve_found (val : string) :
      Get r (Key v) = (val, true) ->
      Choices v = [] \/ In val (Choices v) ->
      SpecResolve v r (Emit val).

(** Handing an outcome to a sink. A failure leaves the sink as it was. *)
Definition deliver {W} `{Writer W} (w : W) (o : outcome) : W * option error :=
  match o with
  | Emit value => WriteString w value
  | Fail err => (w, Some err)
  end.

(** What a node contributes: a literal always emits its text. *)
Inductive NodeOutcome (r : Replacer) : Node -> outcome -> Prop :=
  | Outcome_text (t : TextNode) : NodeOutcome r (NText t) (Emit (Text t))
  | Outcome_var (v : VarNode) (o : outcome) :
      SpecResolve v r o -> NodeOutcome r (NVar v) o.

(** A sink is reliable when every write succeeds and appends to what the
    sink holds: an in-memory buffer. *)
Class ReliableWriter (W : Type) `{Writer W} := {
  contents : W -> string;
  WriteString_appends :
    forall (w : W) (s : string),
      exists w', WriteString w s = (w', None) /\ contents w' = contents w +:+ s
}.

#[export, refine] Instance Builder_Reliable : ReliableWriter Builder :=
  {| contents := Builder_String |}.
Proof. intros w s. eexists. split; reflexivity. Defined.

#[export, refine] Instance Buffer_Reliable : ReliableWriter Buffer :=
  {| contents := Buffer_String |}.
Proof. intros w s. eexists. split; reflexivity. Defined.

(** ** Example data *)

(** The variable node of ["{{.greeting:Hi|Hello|@Hey}}"], and Replacers
    that answer ["Bye"], ["Hello"] and nothing for it. *)
Definition greetingNode : VarNode := mkVarNode "greeting" ["Hi"; "Hello"] "Hey" true.

Definition byeReplacer : Replacer := ReplacerFuncFromMap {[ "greeting" := "Bye" ]}.

Definition helloReplacer : Replacer := ReplacerFuncFromMap {[ "greeting" := "Hello" ]}.

Definition emptyReplacer : Replacer := ReplacerFuncFromMap ∅.

(** Parse, then render against a map: what the command line does with a
    template file and its [--replace] flags. *)
Definition render (data : string) (m : gmap string string) : string * option error :=
  match ParseString data with
  | (Some t, None) => Execute t (ReplacerFuncFromMap m)
  | (_, Some err) => ("", Some err)
  | (None, None) => ("", None)
  end.

(** The template of ["Hello {{.greeting:Hi|Hello|@Hey}}!"]. *)
Definition greetingTemplate : Template :=
  mkTemplate [NText (mkTextNode "Hello "); NVar greetingNode; NText (mkTextNode "!")].

(** ** The legacy regex engine

    [New] reads the template, starts [parse] on a goroutine and returns;
    [parse] hands every match of [placeholderRe] to the function below and
    sends the result on the channel [rendered]. Only that function is
    modelled: its arguments are the two submatches of a match, the key and
    the parameters (empty when the match has none). *)

Module Legacy.

(** What the function does for one match: it returns the replacement or
    panics. *)
Inductive result : Type :=
  | Replaced (value : string)
  | PanicMissingKey (key : string)
  | PanicInvalidValue (value key : string) (allowed : list string).

Fixpoint parseParams_loop (parts allowed : list string) (def : string)
  : list string * string :=
  match parts with
  | [] => (allowed, def)
  | p :: rest =>
      let p := TrimSpace p in
      if String.eqb p "" then parseParams_loop rest allowed def
      else if HasPrefix p "@" then parseParams_loop rest allowed (drop 1 p)
      else parseParams_loop rest (allowed ++ [p]) def
  end.

Definition parseParams (params : string) : list string * string :=
  parseParams_loop (Split params "|") [] "".

Fixpoint contains (slice : list string) (val : string) : bool :=
  match slice with
  | [] => false
  | v :: rest => if String.eqb v val then true else contains rest val
  end.

Definition replaceMatch (replacements : gmap string string) (key params : string)
  : result :=
  let '(allowed, def) := parseParams params in
  let resolved :=
    match replacements !! key with
    | Some value => inl value
    | None => if String.eqb def "" then inr (PanicMissingKey key) else inl def
    end in
  match resolved with
  | inr panic => panic
  | inl value =>
      if (0 <? length allowed) && negb (contains allowed value)
      then PanicInvalidValue value key allowed
      else Replaced value
  end.

End Legacy.

(** ** Reading a parsed template back *)

(** The variable nodes of a node list, in order. *)
Fixpoint varNodes (nodes : list Node) : list VarNode :=
  match nodes with
  | [] => []
  | NText _ :: rest => varNodes rest
  | NVar v :: rest => v :: varNodes rest
  end.


(** No literal node is empty and no two literal nodes are neighbours;
    [afterText] tells whether the node before the list is a literal. *)
Fixpoint literalsMaximal (afterText : bool) (nodes : list Node) : bool :=
  match nodes with
  | [] => true
  | NText t :: rest =>
      negb afterText && (0 <? String.length (Text t)) && literalsMaximal true rest
  | NVar _ :: rest => literalsMaximal false rest
  end.

(** Whether a node list ends with a literal; [afterText] answers for the
    empty list. *)
Fixpoint endsWithText (afterText : bool) (nodes : list Node) : bool :=
  match nodes with
  | [] => afterText
  | NText _ :: rest => endsWithText true rest
  | NVar _ :: rest => endsWithText false rest
  end.

(** Whether a string starts with a white-space code point: the test
    [TrimLeftSpace] makes before it drops one. *)
Definition startsWithSpace (s : string) : bool :=
  match s with
  | String c1 s1 =>
      asciiSpace c1 ||
      match s1 with
      | String c2 s2 =>
          isSpace2 c1 c2 ||
          match s2 with
          | String c3 _ => isSpace3 c1 c2 c3
          | EmptyString => false
          end
      | EmptyString => false
      end
  | EmptyString => false
  end.

(** The same test on a reversed string. *)
Definition endsWithSpaceRev (s : string) : bool :=
  match s with
  | String c1 s1 =>
      asciiSpace c1 ||
      match s1 with
      | String c2 s2 =>
          isSpace2 c2 c1 ||
          match s2 with
          | String c3 _ => isSpace3 c3 c2 c1
          | EmptyString => false
          end
      | EmptyString => false
      end
  | EmptyString => false
  end.

(** ** The command line: [parseReplacements], [template.Parse], [processTemplate] *)

Module Cli.

(** [strings.SplitN(s, sep, n)] for a non-empty [sep] and [n >= 0]: at most
    [n] parts, the last one the unsplit remainder. *)
Definition SplitN (s sep : string) (n : nat) : list string :=
  match n with
  | 0 => []
  | S cuts => genSplit cuts s sep
  end.

(** What reading a template file to its end gives: the bytes read and the
    error, if any, that stopped the reading. *)
Record Reader := mkReader { readBytes : string; readError : option string }.

(** The errors of the command line, by the message [fmt.Errorf] gives
    them; the wrapped error is the argument. [template.Parse] fails with the
    reader's error or with the error of [ParseString]. *)
Inductive parseCause : Type :=
  | ReadFailed (cause : string)
  | SyntaxFailed (cause : error).

Inductive cliError : Type :=
  | InvalidReplacementFormat (rep : string)
  | EmptyReplacementKey (rep : string)
  | FailedToOpenTemplate (cause : string)
  | FailedToParseTemplate (cause : parseCause)
  | FailedToExecuteTemplate (cause : error).

(** The loop of [parseReplacements]; its state is the map. *)
Fixpoint parseReplacements_loop (replaceFlags : list string)
         (replacements : gmap string string)
  : option (gmap string string) * option cliError :=
  match replaceFlags with
  | [] => (Some replacements, None)
  | rep :: rest =>
      match SplitN rep "=" 2 with
      | [k; v] =>
          let key := TrimSpace k in
          let value := TrimSpace v in
          if String.eqb key ""
          then (None, Some (EmptyReplacementKey rep))
          else parseReplacements_loop rest (<[key := value]> replacements)
      | _ => (None, Some (InvalidReplacementFormat rep))
      end
  end.

Definition parseReplacements (replaceFlags : list string)
  : option (gmap string string) * option cliError :=
  parseReplacements_loop replaceFlags ∅.

(** [template.Parse(r)]: read everything, then [ParseString]. *)
Definition Parse (r : Reader) : option Template * option parseCause :=
  match readError r with
  | Some err => (None, Some (ReadFailed err))
  | None =>
      match ParseString (readBytes r) with
      | (t, Some err) => (t, Some (SyntaxFailed err))
      | (t, None) => (t, None)
      end
  end.

(** [processTemplate(cfg)]; [opened] is what [os.Open(cfg.TemplateFile)]
    returned, the file as a reader or the error. *)
Definition processTemplate (opened : Reader + string) (Replacements : gmap string string)
  : string * option cliError :=
  match opened with
  | inr err => ("", Some (FailedToOpenTemplate err))
  | inl file =>
      match Parse file with
      | (_, Some err) => ("", Some (FailedToParseTemplate err))
      | (None, None) => ("", None) (* never met: no error comes with a template *)
      | (Some t, None) =>
          let replacer := ReplacerFuncFromMap Replacements in
          match ExecuteTo t (mkBuilder "") replacer with
          | (_, Some err) => ("", Some (FailedToExecuteTemplate err))
          | (output, None) => (Builder_String output, None)
          end
      end
  end.

(** What a flag says: the trimmed text before its first ["="] and the
    trimmed text after it. *)
Definition flagKey (rep : string) : string :=
  match Index rep "=" with
  | Some i => TrimSpace (take i rep)
  | None => ""
  end.

Definition flagValue (rep : string) : string :=
  match Index rep "=" with
  | Some i => TrimSpace (drop (i + 1) rep)
  | None => ""
  end.

Definition wellFormedFlag (rep : string) : Prop :=
  Index rep "=" <> None /\ flagKey rep <> "".

End Cli.

(** ** The git wrapper: [runGitCommand], [ValidateGitState], [Commit] *)

Module Git.

(** What running [git] with some arguments gives: the combined output and
    the error of the process, if any. The state of the repository is this
    function. *)
Definition Exec : Type := list string -> string * option string.

(** [&GitError{Command, Err}]; [Err] is the process error behind the
    output it is formatted after. *)
Record GitError := mkGitError { Command : string; output : string; cause : string }.

(** The errors [ValidateGitState] and [Commit] return, by message. *)
Inductive error : Type :=
  | NotAGitRepository (err : GitError)
  | FailedToCheckStagedChanges (err : GitError)
  | NoStagedChanges
  | FailedToCheckUnstagedChanges (err : GitError)
  | UnstagedChanges
  | FailedToGetCurrentBranch (err : GitError)
  | DetachedHead
  | CommitFailed (cause : string).

(** [strings.Join(args, " ")] is [String.concat " " args]. *)
Definition runGitCommand (git : Exec) (args : list string)
  : string * option GitError :=
  match git args with
  | (out, Some err) => ("", Some (mkGitError (String.concat " " args) out err))
  | (out, None) => (TrimSpace out, None)
  end.

Definition IsGitRepository (git : Exec) : option GitError :=
  snd (runGitCommand git ["rev-parse"; "--is-inside-work-tree"]).

Definition HasStagedChanges (git : Exec) : bool * option GitError :=
  match runGitCommand git ["diff"; "--cached"; "--name-only"] with
  | (_, Some err) => (false, Some err)
  | (out, None) => (negb (String.eqb out ""), None)
  end.

Definition HasUnstagedChanges (git : Exec) : bool * option GitError :=
  match runGitCommand git ["diff"; "--name-only"] with
  | (_, Some err) => (false, Some err)
  | (out, None) => (negb (String.eqb out ""), None)
  end.

Definition GetCurrentBranch (git : Exec) : string * option GitError :=
  runGitCommand git ["rev-parse"; "--abbrev-ref"; "HEAD"].

Definition ValidateGitState (git : Exec) : option error :=
  match IsGitRepository git with
  | Some err => Some (NotAGitRepository err)
  | None =>
      match HasStagedChanges git with
      | (_, Some err) => Some (FailedToCheckStagedChanges err)
      | (false, None) => Some NoStagedChanges
      | (true, None) =>
          match HasUnstagedChanges git with
          | (_, Some err) => Some (FailedToCheckUnstagedChanges err)
          | (true, None) => Some UnstagedChanges
          | (false, None) =>
              match GetCurrentBranch git with
              | (_, Some err) => Some (FailedToGetCurrentBranch err)
              | (branch, None) =>
                  if String.eqb branch "HEAD" then Some DetachedHead else None
              end
          end
      end
  end.

(** [Commit(message)]: validate, then run [git commit -m message]; the
    commit's output goes to the terminal, its error is returned in a
    [GitError] for ["commit"]. *)
Definition Commit (git : Exec) (message : string) : option error :=
  match ValidateGitState git with
  | Some err => Some err
  | None =>
      match git ["commit"; "-m"; message] with
      | (_, Some err) => Some (CommitFailed err)
      | (_, None) => None
      end
  end.

End Git.

(** ** The interactive form: [initModel], [buildText], the Enter key *)

Module Bubble.

(** A [textinput.Model], as far as the form uses it: the two fields it
    sets and the value the input reports through [Value()]. *)
Record textinput := mkInput { Placeholder : string; Width : nat; Value : string }.

Section Form.

(** The two methods of [textinput.Model] the form relies on, left to the
    library: the value an empty input reports after [SetValue(s)], and the
    rendering [View()] of an input. *)
Variable SetValue : string -> string.
Variable View : textinput -> string.

(** The input [initModel] builds for a variable node. *)
Definition newInput (n : VarNode) : textinput :=
  if negb (String.eqb (Default n) "")
  then mkInput (Key n) (String.length (Default n) + 1) (SetValue (Default n))
  else mkInput (Key n) (String.length (Key n)) "".

(** The loop of [initModel] over [tmpl.Nodes]; its state is the builder
    [text] and the slices [staticTexts] and [inputFields]. The result is
    the two slices as the model receives them. *)
Fixpoint initModel_loop (nodes : list Node) (text : string)
         (staticTexts : list string) (inputFields : list textinput)
  : list string * list textinput :=
  match nodes with
  | [] => (staticTexts ++ [text], inputFields)
  | NText n :: rest => initModel_loop rest (text +:+ Text n) staticTexts inputFields
  | NVar n :: rest =>
      initModel_loop rest "" (staticTexts ++ [text]) (inputFields ++ [newInput n])
  end.

Definition initModel (tmpl : Template) : list string * list textinput :=
  initModel_loop (Nodes tmpl) "" [] [].

(** [buildText]: the loop over [m.staticTexts] with its index [i] and the
    builder [b]. *)
Fixpoint buildText_loop (i : nat) (b : string) (staticTexts : list string)
         (inputFields : list textinput) : string :=
  match staticTexts with
  | [] => b
  | text :: rest =>
      let b := b +:+ text in
      let b := match nth_error inputFields i with
               | Some input => b +:+ View input (* i < len(m.inputFields) *)
               | None => b
               end in
      buildText_loop (S i) b rest inputFields
  end.

Definition buildText (staticTexts : list string) (inputFields : list textinput)
  : string :=
  buildText_loop 0 "" staticTexts inputFields.

End Form.

(** The Enter key of [Update]: every input that holds a value stores it in
    the map under its placeholder. *)
Definition Update_Enter (inputFields : list textinput) (replace : gmap string string)
  : gmap string string :=
  fold_left
    (fun replace inputField =>
       if negb (String.eqb (Value inputField) "")
       then <[Placeholder inputField := Value inputField]> replace
       else replace)
    inputFields replace.

(** What the form shows for a node list: the literals as they are, every
    variable node as the view of its input. *)
Definition preview (SetValue : string -> string) (View : textinput -> string)
           (nodes : list Node) : string :=
  String.concat ""
    (List.map (fun n => match n with
                        | NText t => Text t
                        | NVar v => View (newInput SetValue v)
                        end) nodes).

End Bubble.

(** Static texts and views, taken in turn. *)
Fixpoint weave (texts views : list string) : string :=
  match texts, views with
  | [], _ => ""
  | text :: texts', [] => text +:+ weave texts' []
  | text :: texts', view :: views' => text +:+ view +:+ weave texts' views'
  end.

(** What a node list renders to when no key is found and every variable
    node has a default: the literals and the defaults. *)
Definition renderDefaults (nodes : list Node) : string :=
  String.concat ""
    (List.map (fun n => match n with
                        | NText t => Text t
                        | NVar v => Default v
                        end) nodes).

(** Every variable node of the list has a default. *)
Definition allHaveDefaults (nodes : list Node) : Prop :=
  Forall (fun n => match n with
                   | NText _ => True
                   | NVar v => HasDef v = true
                   end) nodes.

(** * Properties *)

(** ** The parse loop, one turn at a time *)

Lemma ParseString_loop_step (data : string) (pos : nat) (nodes : list Node) :
  ParseString_loop data pos nodes =
  match findNextTemplate data pos with
  | (_, _, false) =>
      (Some (mkTemplate
               (if 0 <? String.length (drop pos data)
                then nodes ++ [NText (mkTextNode (drop pos data))]
                else nodes)), None)
  | (start, end_, true) =>
      match parseToken (slice data (start + 2) (end_ - 2)) with
      | inr err => (None, Some err)
      | inl node =>
          ParseString_loop data end_
            ((if pos <? start
              then nodes ++ [NText (mkTextNode (slice data pos start))]
              else nodes) ++ [node])
      end
  end.
Proof.
  simp ParseString_loop.
  destruct (inspect (findNextTemplate data pos)) as [[[start end_] [|]] H];
    simpl; rewrite H; reflexivity.
Qed.

(** ** Resolution of a variable node *)

Lemma isValidChoice_loop_In (choices : list string) (val : string) :
  isValidChoice_loop choices val = true <-> In val choices.
Proof.
  induction choices as [|c rest IH]; simpl.
  - split; [discriminate | tauto].
  - destruct (String.eqb c val) eqn:E.
    + apply String.eqb_eq in E. tauto.
    + apply String.eqb_neq in E. rewrite IH. split; [tauto|].
      intros [Hc|Hin]; [contradiction | assumption].
Qed.

Lemma SpecResolve_total (v : VarNode) (r : Replacer) :
  exists o, SpecResolve v r o.
Proof.
  destruct (Get r (Key v)) as [val [|]] eqn:Hget.
  - destruct (isValidChoice_loop (Choices v) val) eqn:Hvalid.
    + exists (Emit val). apply (Resolve_found _ _ _ Hget).
      right. now apply isValidChoice_loop_In.
    + destruct (Choices v) as [|c cs] eqn:Hc.
      * exists (Emit val). apply (Resolve_found _ _ _ Hget). now left.
      * exists (Fail (ErrInvalidValue (Key v) val (Choices v))).
        apply (Resolve_invalid _ _ _ Hget); rewrite Hc; [discriminate|].
        intros Hin. apply isValidChoice_loop_In in Hin. congruence.
  - destruct (HasDef v) eqn:Hdef.
    + exists (Emit (Default v)). now apply (Resolve_default _ _ val).
    + exists (Fail (ErrNoReplacement (Key v))). now apply (Resolve_missing _ _ val).
Qed.

Lemma SpecResolve_deterministic (v : VarNode) (r : Replacer) (o1 o2 : outcome) :
  SpecResolve v r o1 -> SpecResolve v r o2 -> o1 = o2.
Proof.
  intros [val1 Hg1 Hne Hnin | z1 Hg1 Hd1 | z1 Hg1 Hd1 | val1 Hg1 Hok]
         [val2 Hg2 Hne2 Hnin2 | z2 Hg2 Hd2 | z2 Hg2 Hd2 | val2 Hg2 Hok2];
    rewrite Hg1 in Hg2; try congruence.
  - injection Hg2 as <-. destruct Hok2; contradiction.
  - injection Hg2 as <-. destruct Hok; contradiction.
Qed.

Section Rendering.

Context {W : Type} `{Writer W}.

Lemma VarNode_WriteTo_resolve (v : VarNode) (r : Replacer) (w : W) (o : outcome) :
  SpecResolve v r o -> VarNode_WriteTo v w r = deliver w o.
Proof.
  intros Hres. unfold VarNode_WriteTo, isValidChoice.
  destruct Hres as [val Hget Hne Hnin | zero Hget Hdef | zero Hget Hdef | val Hget Hok];
    rewrite Hget; simpl.
  - destruct (Choices v) as [|c cs] eqn:Hc; [contradiction|].
    rewrite <- Hc in *. 
    destruct (isValidChoice_loop (Choices v) val) eqn:Hvalid.
    + apply isValidChoice_loop_In in Hvalid. contradiction.
    + rewrite Hc. reflexivity.
  - rewrite Hdef. rewrite andb_false_r. reflexivity.
  - rewrite Hdef. reflexivity.
  - destruct Hok as [Hnil | Hin].
    + rewrite Hnil. reflexivity.
    + apply isValidChoice_loop_In in Hin. rewrite Hin.
      rewrite andb_false_r. reflexivity.
Qed.

End Rendering.

(** ** The contribution of a node *)

Lemma NodeOutcome_total (r : Replacer) (n : Node) : exists o, NodeOutcome r n o.
Proof.
  destruct n as [t|v].
  - eexists. constructor.
  - destruct (SpecResolve_total v r) as [o Ho]. exists o. now constructor.
Qed.

Lemma WriteTo_outcome {W} `{Writer W} (r : Replacer) (n : Node) (o : outcome) (w : W) :
  NodeOutcome r n o -> WriteTo n w r = deliver w o.
Proof.
  intros [t | v o' Hres]; simpl.
  - reflexivity.
  - now apply VarNode_WriteTo_resolve.
Qed.

Lemma NodeOutcome_deterministic (r : Replacer) (n : Node) (o1 o2 : outcome) :
  NodeOutcome r n o1 -> NodeOutcome r n o2 -> o1 = o2.
Proof.
  intros H1 H2. destruct H1 as [t | v o1 H1]; inversion H2; subst; [reflexivity|].
  eapply SpecResolve_deterministic; eassumption.
Qed.

Lemma append_cons (x : ascii) (a b : string) : String x a +:+ b = String x (a +:+ b).
Proof. reflexivity. Qed.

Lemma append_assoc (a b c : string) : (a +:+ b) +:+ c = a +:+ (b +:+ c).
Proof.
  induction a as [|x a IH]; [reflexivity|].
  rewrite !append_cons. now rewrite IH.
Qed.

Lemma append_nil_r (a : string) : a +:+ "" = a.
Proof.
  induction a as [|x a IH]; [reflexivity|].
  rewrite append_cons. now rewrite IH.
Qed.

Lemma concat_cons (s : string) (outs : list string) :
  String.concat "" (s :: outs) = s +:+ String.concat "" outs.
Proof. destruct outs; cbn [String.concat]; [now rewrite append_nil_r | reflexivity]. Qed.

(** [Execute] from any state of its builder: on success the builder's
    content followed by the nodes' values, on failure the first failure. *)
Lemma Execute_loop_outcomes (r : Replacer) (nodes : list Node) (out : Builder) :
  (exists outs,
      Forall2 (fun n s => NodeOutcome r n (Emit s)) nodes outs /\
      Execute_loop nodes out r = (Builder_String out +:+ String.concat "" outs, None))
  \/
  (exists pre node post outs err,
      nodes = pre ++ node :: post /\
      Forall2 (fun n s => NodeOutcome r n (Emit s)) pre outs /\
      NodeOutcome r node (Fail err) /\
      Execute_loop nodes out r = ("", Some err)).
Proof.
  revert out. induction nodes as [|n rest IH]; intros out.
  - left. exists []. split; [constructor|]. simpl. now rewrite append_nil_r.
  - destruct (NodeOutcome_total r n) as [[s|err] Ho].
    + specialize (IH (mkBuilder (Builder_String out +:+ s))).
      destruct IH as [(outs & Hall & Hrun) | (pre & node & post & outs & err & -> & Hall & Hfail & Hrun)].
      * left. exists (s :: outs). split; [now constructor|].
        rewrite concat_cons. simpl. rewrite (WriteTo_outcome r n _ out Ho). simpl.
        rewrite Hrun. cbn [Builder_String]. now rewrite append_assoc.
      * right. exists (n :: pre), node, post, (s :: outs), err.
        repeat split; [now constructor | assumption |].
        simpl. rewrite (WriteTo_outcome r n _ out Ho). simpl. exact Hrun.
    + right. exists [], n, rest, [], err.
      repeat split; [constructor | assumption |].
      simpl. now rewrite (WriteTo_outcome r n _ out Ho).
Qed.

(** On any sink, failing or not: [ExecuteTo] leaves the sink as the failing
    node's own [WriteTo] left it, after the nodes before it were all
    written; no later node is handed to the sink. *)
Lemma ExecuteTo_loop_stops {W} `{Writer W} (r : Replacer) (nodes : list Node)
      (w w' : W) (err : error) :
  ExecuteTo_loop nodes w r = (w', Some err) ->
  exists pre node post w1,
    nodes = pre ++ node :: post /\
    ExecuteTo_loop pre w r = (w1, None) /\
    WriteTo node w1 r = (w', Some err).
Proof.
  revert w. induction nodes as [|n rest IH]; intros w; simpl; [discriminate|].
  destruct (WriteTo n w r) as [w1 [e|]] eqn:Hn.
  - intros [= <- <-]. now exists [], n, rest, w.
  - intros Hrest. destruct (IH w1 Hrest) as (pre & node & post & w2 & -> & Hpre & Hfail).
    exists (n :: pre), node, post, w2. simpl. rewrite Hn. auto.
Qed.

Section ReliableSink.

Context {W : Type} `{ReliableWriter W}.

Lemma deliver_Emit (w : W) (s : string) :
  exists w', deliver w (Emit s) = (w', None) /\ contents w' = contents w +:+ s.
Proof. apply WriteString_appends. Qed.

(** [ExecuteTo] from any state of a reliable sink. *)
Lemma ExecuteTo_loop_outcomes (r : Replacer) (nodes : list Node) (w : W) :
  (exists outs w',
      Forall2 (fun n s => NodeOutcome r n (Emit s)) nodes outs /\
      ExecuteTo_loop nodes w r = (w', None) /\
      contents w' = contents w +:+ String.concat "" outs)
  \/
  (exists pre node post outs err w',
      nodes = pre ++ node :: post /\
      Forall2 (fun n s => NodeOutcome r n (Emit s)) pre outs /\
      NodeOutcome r node (Fail err) /\
      ExecuteTo_loop nodes w r = (w', Some err) /\
      contents w' = contents w +:+ String.concat "" outs).
Proof.
  revert w. induction nodes as [|n rest IH]; intros w.
  - left. exists [], w. split; [constructor|]. simpl. now rewrite append_nil_r.
  - destruct (NodeOutcome_total r n) as [[s|err] Ho].
    + destruct (deliver_Emit w s) as (w1 & Hw1 & Hc1).
      destruct (IH w1) as [(outs & w' & Hall & Hrun & Hc)
                          | (pre & node & post & outs & err & w' & -> & Hall & Hfail & Hrun & Hc)].
      * left. exists (s :: outs), w'. split; [now constructor|].
        rewrite concat_cons. simpl. rewrite (WriteTo_outcome r n _ w Ho), Hw1.
        split; [exact Hrun|]. now rewrite Hc, Hc1, append_assoc.
      * right. exists (n :: pre), node, post, (s :: outs), err, w'.
        rewrite concat_cons. simpl. rewrite (WriteTo_outcome r n _ w Ho), Hw1.
        repeat split; [now constructor | assumption | exact Hrun |].
        now rewrite Hc, Hc1, append_assoc.
    + right. exists [], n, rest, [], err, w.
      simpl. rewrite (WriteTo_outcome r n _ w Ho). simpl.
      repeat split; [constructor | assumption |]. now rewrite append_nil_r.
Qed.

(** The two loops side by side: the same error, and on success the same
    bytes added to what each sink held. *)
Lemma Execute_ExecuteTo_loops (r : Replacer) (nodes : list Node) (out : Builder) (w : W) :
  snd (Execute_loop nodes out r) = snd (ExecuteTo_loop nodes w r) /\
  (snd (Execute_loop nodes out r) = None ->
   exists added,
     fst (Execute_loop nodes out r) = Builder_String out +:+ added /\
     contents (fst (ExecuteTo_loop nodes w r)) = contents w +:+ added).
Proof.
  revert out w. induction nodes as [|n rest IH]; intros out w.
  - simpl. split; [reflexivity|]. intros _. exists "". now rewrite !append_nil_r.
  - destruct (NodeOutcome_total r n) as [[s|err] Ho]; simpl;
      rewrite (WriteTo_outcome r n _ out Ho), (WriteTo_outcome r n _ w Ho).
    + destruct (deliver_Emit w s) as (w1 & Hw1 & Hc1). rewrite Hw1. simpl.
      destruct (IH (mkBuilder (Builder_String out +:+ s)) w1) as [Herr Hout].
      split; [exact Herr|]. intros Hnone.
      destruct (Hout Hnone) as (added & Ha & Hb).
      exists (s +:+ added). rewrite Ha, Hb, Hc1. simpl. now rewrite !append_assoc.
    + simpl. split; [reflexivity | discriminate].
Qed.

(** On a reliable sink a run that succeeded added the values of its nodes. *)
Lemma ExecuteTo_loop_success_contents (r : Replacer) (nodes : list Node) (w w1 : W) :
  ExecuteTo_loop nodes w r = (w1, None) ->
  exists outs,
    Forall2 (fun n s => NodeOutcome r n (Emit s)) nodes outs /\
    contents w1 = contents w +:+ String.concat "" outs.
Proof.
  intros Hrun.
  destruct (ExecuteTo_loop_outcomes r nodes w)
    as [(outs & w2 & Hall & Hrun' & Hc)
       | (pre & node & post & outs & err & w2 & _ & _ & _ & Hrun' & _)];
    rewrite Hrun in Hrun'; [|discriminate].
  injection Hrun' as ->. now exists outs.
Qed.

(** On a reliable sink a node only fails by resolution, and then writes
    nothing. *)
Lemma WriteTo_failure_reliable (r : Replacer) (node : Node) (w1 w' : W) (err : error) :
  WriteTo node w1 r = (w', Some err) ->
  NodeOutcome r node (Fail err) /\ w' = w1.
Proof.
  destruct (NodeOutcome_total r node) as [[s|e] Ho];
    rewrite (WriteTo_outcome r node _ w1 Ho).
  - destruct (deliver_Emit w1 s) as (w2 & -> & _). discriminate.
  - simpl. intros [= <- <-]. auto.
Qed.

End ReliableSink.

(** ** Rendering: the claims *)

(** C1. A variable node is resolved as the specification prescribes. With
    [(val, found)] the Replacer's answer for the node's key: a found value
    outside a non-empty allowed-values list fails with [ErrInvalidValue]
    carrying the value, the key and the list; a key that is not found
    writes the default, unchecked, when there is one, and fails with
    [ErrNoReplacement] carrying the key when there is none; in every other
    case the found value is written. A failure writes nothing. *)
Theorem VarNode_WriteTo_follows_spec
  {W} `{Writer W} (v : VarNode) (r : Replacer) (w : W) (val : string) (found : bool) :
  Get r (Key v) = (val, found) ->
  (found = true -> Choices v <> [] -> ~ In val (Choices v) ->
   VarNode_WriteTo v w r = (w, Some (ErrInvalidValue (Key v) val (Choices v)))) /\
  (found = false -> HasDef v = true ->
   VarNode_WriteTo v w r = WriteString w (Default v)) /\
  (found = false -> HasDef v = false ->
   VarNode_WriteTo v w r = (w, Some (ErrNoReplacement (Key v)))) /\
  (found = true -> Choices v = [] \/ In val (Choices v) ->
   VarNode_WriteTo v w r = WriteString w val).
Proof.
  intros Hget. repeat split.
  - intros -> Hne Hnin.
    exact (VarNode_WriteTo_resolve v r w _ (Resolve_invalid v r val Hget Hne Hnin)).
  - intros -> Hdef.
    exact (VarNode_WriteTo_resolve v r w _ (Resolve_default v r val Hget Hdef)).
  - intros -> Hdef.
    exact (VarNode_WriteTo_resolve v r w _ (Resolve_missing v r val Hget Hdef)).
  - intros -> Hok.
    exact (VarNode_WriteTo_resolve v r w _ (Resolve_found v r val Hget Hok)).
Qed.

Lemma VarNode_WriteTo_follows_spec_witness :
  Get byeReplacer (Key greetingNode) = ("Bye", true) /\
  Choices greetingNode <> [] /\
  ~ In "Bye" (Choices greetingNode) /\
  VarNode_WriteTo greetingNode (mkBuffer "Hello ") byeReplacer =
    (mkBuffer "Hello ", Some (ErrInvalidValue "greeting" "Bye" ["Hi"; "Hello"])).
Proof.
  assert (Hget : Get byeReplacer (Key greetingNode) = ("Bye", true)) by reflexivity.
  assert (Hne : Choices greetingNode <> []) by discriminate.
  assert (Hnin : ~ In "Bye" (Choices greetingNode)).
  { simpl. intros [E|[E|[]]]; discriminate E. }
  split; [exact Hget | split; [exact Hne | split; [exact Hnin |]]].
  exact (proj1 (VarNode_WriteTo_follows_spec greetingNode byeReplacer
                  (mkBuffer "Hello ") "Bye" true Hget)
           eq_refl Hne Hnin).
Defined.

(** C4, as the claim states it, fails: it names no condition on the sink,
    and [ExecuteTo] returns whatever error the sink's [Write] returns. On a
    sink that takes eight bytes and then fails, the template parsed from
    ["Hello {{.greeting:Hi|Hello|@Hey}}!"] renders with [Execute] and fails
    with [ExecuteTo], with an error that is none of the engine's. *)
Lemma Execute_ExecuteTo_agree_counterexample :
  ParseString "Hello {{.greeting:Hi|Hello|@Hey}}!" = (Some greetingTemplate, None) /\
  Execute greetingTemplate helloReplacer = ("Hello Hello!", None) /\
  ExecuteTo greetingTemplate (mkLimited "" 8) helloReplacer =
    (mkLimited "Hello He" 0, Some (WriterError "short write")) /\
  snd (Execute greetingTemplate helloReplacer) <>
    snd (ExecuteTo greetingTemplate (mkLimited "" 8) helloReplacer).
Proof. repeat split; try reflexivity. discriminate. Qed.

(** C4, amended. [Execute] and [ExecuteTo] agree on a sink whose writes
    succeed. For every template, every Replacer and every sink whose writes
    succeed and append, the two calls return the same error (so one succeeds
    exactly when the other does), and when they succeed the bytes
    [ExecuteTo] added to the sink are the string [Execute] returned. *)
Theorem Execute_ExecuteTo_agree
  {W} `{ReliableWriter W} (t : Template) (r : Replacer) (w : W) :
  snd (Execute t r) = snd (ExecuteTo t w r) /\
  (snd (Execute t r) = None ->
   contents (fst (ExecuteTo t w r)) = contents w +:+ fst (Execute t r)).
Proof.
  unfold Execute, ExecuteTo.
  destruct (Execute_ExecuteTo_loops r (Nodes t) (mkBuilder "") w) as [Herr Hout].
  split; [exact Herr|]. intros Hnone.
  destruct (Hout Hnone) as (added & Ha & Hb).
  rewrite Ha, Hb. reflexivity.
Qed.

Lemma Execute_ExecuteTo_agree_witness :
  snd (Execute greetingTemplate helloReplacer) = None /\
  Execute greetingTemplate helloReplacer = ("Hello Hello!", None) /\
  Buffer_String (fst (ExecuteTo greetingTemplate (mkBuffer "") helloReplacer)) =
    fst (Execute greetingTemplate helloReplacer).
Proof.
  assert (Hnone : snd (Execute greetingTemplate helloReplacer) = None) by reflexivity.
  split; [exact Hnone | split; [reflexivity|]].
  exact (proj2 (Execute_ExecuteTo_agree greetingTemplate helloReplacer (mkBuffer ""))
           Hnone).
Defined.

(** C10. When [Execute] returns an error, the string it returns is empty. *)
Theorem Execute_error_returns_empty (t : Template) (r : Replacer) (s : string) (err : error) :
  Execute t r = (s, Some err) -> s = "".
Proof.
  unfold Execute. generalize (mkBuilder "").
  induction (Nodes t) as [|n rest IH]; intros out; simpl.
  - discriminate.
  - destruct (WriteTo n out r) as [out' [e|]].
    + now intros [= <- _].
    + apply IH.
Qed.

Lemma Execute_error_returns_empty_witness :
  Execute greetingTemplate byeReplacer =
    ("", Some (ErrInvalidValue "greeting" "Bye" ["Hi"; "Hello"])) /\
  fst (Execute greetingTemplate byeReplacer) = "".
Proof.
  assert (Hrun : Execute greetingTemplate byeReplacer =
                 (fst (Execute greetingTemplate byeReplacer),
                  Some (ErrInvalidValue "greeting" "Bye" ["Hi"; "Hello"])))
    by reflexivity.
  split; [reflexivity|].
  exact (Execute_error_returns_empty greetingTemplate byeReplacer _ _ Hrun).
Defined.

(** C7, as the claim states it, fails: when the failure is the sink's own,
    the failing node has written part of its output. On a sink that takes
    eight bytes and then fails, the literal ["Hello "] is written, and the
    variable node after it fails having left ["He"] of its value ["Hello"]
    in the sink. *)
Lemma ExecuteTo_fail_fast_counterexample :
  ExecuteTo greetingTemplate (mkLimited "" 8) helloReplacer =
    (mkLimited "Hello He" 0, Some (WriterError "short write")) /\
  ExecuteTo (mkTemplate [NText (mkTextNode "Hello ")]) (mkLimited "" 8) helloReplacer =
    (mkLimited "Hello " 2, None) /\
  WriteTo (NVar greetingNode) (mkLimited "Hello " 2) helloReplacer =
    (mkLimited "Hello He" 0, Some (WriterError "short write")) /\
  written (mkLimited "Hello He" 0) <> written (mkLimited "Hello " 2).
Proof. repeat split; try reflexivity. discriminate. Qed.

(** C7, amended. [ExecuteTo] is fail-fast and does not roll back. When it
    returns an error, on any sink, the nodes split into those before a
    failing node, the failing node and the rest: the nodes before were all
    written without error, the error returned is the failing node's, and
    the sink is left as the failing node's own [WriteTo] left it, so no
    later node reached it; a node that fails to resolve leaves the sink as
    the nodes before it left it. On a sink whose writes succeed this reads:
    every node before the failing one emitted its value, the failing node
    failed to resolve, and the sink holds what it held before followed by
    those values and nothing else. *)
Theorem ExecuteTo_fail_fast
  {W} `{Writer W} (t : Template) (r : Replacer) (w w' : W) (err : error) :
  ExecuteTo t w r = (w', Some err) ->
  exists pre node post w1,
    Nodes t = pre ++ node :: post /\
    ExecuteTo (mkTemplate pre) w r = (w1, None) /\
    WriteTo node w1 r = (w', Some err) /\
    (forall e, NodeOutcome r node (Fail e) -> e = err /\ w' = w1) /\
    (forall (R : ReliableWriter W),
        exists outs,
          Forall2 (fun n s => NodeOutcome r n (Emit s)) pre outs /\
          NodeOutcome r node (Fail err) /\
          contents w' = contents w +:+ String.concat "" outs).
Proof.
  unfold ExecuteTo. intros Hrun.
  destruct (ExecuteTo_loop_stops r (Nodes t) w w' err Hrun)
    as (pre & node & post & w1 & Hsplit & Hpre & Hfail).
  exists pre, node, post, w1.
  split; [exact Hsplit|]. split; [exact Hpre|]. split; [exact Hfail|]. split.
  - intros e He. rewrite (WriteTo_outcome r node _ w1 He) in Hfail.
    simpl in Hfail. injection Hfail as -> ->. auto.
  - intros R.
    destruct (ExecuteTo_loop_success_contents r pre w w1 Hpre) as (outs & Hall & Hc).
    destruct (WriteTo_failure_reliable r node w1 w' err Hfail) as [Hres ->].
    now exists outs.
Qed.

Lemma ExecuteTo_fail_fast_witness :
  ExecuteTo greetingTemplate (mkBuffer "") byeReplacer =
    (mkBuffer "Hello ", Some (ErrInvalidValue "greeting" "Bye" ["Hi"; "Hello"])) /\
  exists pre node post w1,
    Nodes greetingTemplate = pre ++ node :: post /\
    ExecuteTo (mkTemplate pre) (mkBuffer "") byeReplacer = (w1, None) /\
    WriteTo node w1 byeReplacer =
      (mkBuffer "Hello ", Some (ErrInvalidValue "greeting" "Bye" ["Hi"; "Hello"])) /\
    (forall e,
        NodeOutcome byeReplacer node (Fail e) ->
        e = ErrInvalidValue "greeting" "Bye" ["Hi"; "Hello"] /\ mkBuffer "Hello " = w1) /\
    (forall (R : ReliableWriter Buffer),
        exists outs,
          Forall2 (fun n s => NodeOutcome byeReplacer n (Emit s)) pre outs /\
          NodeOutcome byeReplacer node
            (Fail (ErrInvalidValue "greeting" "Bye" ["Hi"; "Hello"])) /\
          contents (mkBuffer "Hello ") =
            contents (mkBuffer "") +:+ String.concat "" outs).
Proof.
  assert (Hrun : ExecuteTo greetingTemplate (mkBuffer "") byeReplacer =
                 (mkBuffer "Hello ",
                  Some (ErrInvalidValue "greeting" "Bye" ["Hi"; "Hello"])))
    by reflexivity.
  split; [exact Hrun|].
  exact (ExecuteTo_fail_fast greetingTemplate byeReplacer
           (mkBuffer "") (mkBuffer "Hello ")
           (ErrInvalidValue "greeting" "Bye" ["Hi"; "Hello"]) Hrun).
Defined.

(** ** Where the markers are *)

Lemma drop_nil (n : nat) : drop n "" = "".
Proof. now destruct n. Qed.

Lemma drop_drop (a b : nat) (s : string) : drop a (drop b s) = drop (b + a) s.
Proof.
  revert s. induction b as [|b IH]; intros s; [reflexivity|].
  destruct s as [|c s]; simpl; [apply drop_nil | apply IH].
Qed.

Lemma Index_here (s sep : string) : HasPrefix s sep = true -> Index s sep = Some 0.
Proof. intros E. destruct s; [rewrite Index_nil | rewrite Index_cons]; now rewrite E. Qed.

(** [Index] returns an occurrence ... *)
Lemma Index_HasPrefix (s sep : string) (k : nat) :
  Index s sep = Some k -> HasPrefix (drop k s) sep = true.
Proof.
  revert k. induction s as [|c s IH]; intros k.
  - rewrite Index_nil. destruct (HasPrefix "" sep) eqn:E; [|discriminate].
    now intros [= <-].
  - rewrite Index_cons. destruct (HasPrefix (String c s) sep) eqn:E.
    + now intros [= <-].
    + destruct (Index s sep) as [j|]; simpl; [|discriminate].
      intros [= <-]. now apply IH.
Qed.

(** ... the leftmost one ... *)
Lemma Index_leftmost (s sep : string) (j : nat) :
  HasPrefix (drop j s) sep = true -> exists k, Index s sep = Some k /\ k <= j.
Proof.
  revert s. induction j as [|j IH]; intros s E.
  - exists 0. split; [now apply Index_here | lia].
  - destruct s as [|c s].
    + exists 0. split; [now apply Index_here | lia].
    + rewrite Index_cons. destruct (HasPrefix (String c s) sep).
      * exists 0. split; [reflexivity | lia].
      * destruct (IH s E) as (k & -> & Hk). exists (S k). split; [reflexivity | lia].
Qed.

(** ... and [None] only when there is no occurrence at all. *)
Lemma Index_None (s sep : string) (j : nat) :
  Index s sep = None -> HasPrefix (drop j s) sep = false.
Proof.
  intros Hnone. destruct (HasPrefix (drop j s) sep) eqn:E; [|reflexivity].
  destruct (Index_leftmost s sep j E) as (k & Hk & _). congruence.
Qed.

Lemma HasPrefix_two (a b : ascii) (n : nat) (s : string) :
  HasPrefix (drop n s) (String a (String b "")) = true ->
  String.get n s = Some a /\ String.get (S n) s = Some b.
Proof.
  unfold HasPrefix. revert s. induction n as [|n IH]; intros s.
  - destruct s as [|c [|d s]]; simpl; try discriminate.
    + destruct (Ascii.ascii_dec a c); discriminate.
    + destruct (Ascii.ascii_dec a c) as [->|]; [|discriminate].
      destruct (Ascii.ascii_dec b d) as [->|]; [|discriminate]. auto.
  - destruct s as [|c s]; [discriminate|]. apply IH.
Qed.

(** An opening and a closing marker never overlap. *)
Lemma markers_apart (data : string) (i q : nat) :
  HasPrefix (drop i data) openMarker = true ->
  HasPrefix (drop q data) closeMarker = true ->
  q + 2 <= i \/ i + 2 <= q.
Proof.
  intros Ho Hc.
  apply HasPrefix_two in Ho as [Ho1 Ho2]. apply HasPrefix_two in Hc as [Hc1 Hc2].
  destruct (Nat.eq_dec q i) as [->|]; [congruence|].
  destruct (Nat.eq_dec q (S i)) as [->|]; [congruence|].
  destruct (Nat.eq_dec i (S q)) as [->|]; [congruence|].
  lia.
Qed.

(** What [findNextTemplate] finds: the leftmost opening marker at or after
    [pos] and the leftmost closing marker after it. *)
Lemma findNextTemplate_found (data : string) (pos start end_ : nat) :
  findNextTemplate data pos = (start, end_, true) ->
  exists o c,
    Index (drop pos data) openMarker = Some o /\ start = o + pos /\
    Index (drop (start + 2) data) closeMarker = Some c /\ end_ = c + (start + 2) + 2.
Proof.
  unfold findNextTemplate.
  destruct (Index (drop pos data) openMarker) as [o|] eqn:Eo; [|discriminate].
  destruct (Index (drop (o + pos + String.length openMarker) data) closeMarker)
    as [c|] eqn:Ec; [|discriminate].
  intros [= <- <-]. now exists o, c.
Qed.

(** ** Parsing *)

Lemma markerBodies_step (data : string) (pos : nat) :
  markerBodies data pos =
  match findNextTemplate data pos with
  | (_, _, false) => []
  | (start, end_, true) => slice data (start + 2) (end_ - 2) :: markerBodies data end_
  end.
Proof.
  simp markerBodies.
  destruct (inspect (findNextTemplate data pos)) as [[[start end_] [|]] H];
    simpl; rewrite H; reflexivity.
Qed.

Lemma parseToken_no_sigil (token : string) :
  hasSigil token = false -> parseToken token = inr (ErrInvalidTokenSyntax token).
Proof. unfold hasSigil, parseToken. now intros ->. Qed.

Lemma parseToken_sigil (token : string) :
  hasSigil token = true -> exists v, parseToken token = inl (NVar v).
Proof.
  unfold hasSigil, parseToken. intros ->. cbn [negb].
  destruct (Index _ choiceSep); [|now eexists].
  destruct (fold_left _ _ _) as [[def hasDef] choices]. now eexists.
Qed.

(** The first marker body without the sigil fails the parse, whatever was
    collected before it. *)
Lemma ParseString_loop_rejects (data : string) (n pos : nat) (nodes : list Node) :
  String.length data - pos < n ->
  Exists (fun token => hasSigil token = false) (markerBodies data pos) ->
  exists pre token post,
    markerBodies data pos = pre ++ token :: post /\
    Forall (fun token => hasSigil token = true) pre /\
    hasSigil token = false /\
    ParseString_loop data pos nodes = (None, Some (ErrInvalidTokenSyntax token)).
Proof.
  revert pos nodes. induction n as [|n IH]; intros pos nodes Hn Hex; [lia|].
  rewrite markerBodies_step in Hex |- *. rewrite ParseString_loop_step.
  destruct (findNextTemplate data pos) as [[start end_] [|]] eqn:Hfind.
  - pose proof (findNextTemplate_range _ _ _ _ Hfind) as Hrange.
    destruct (hasSigil (slice data (start + 2) (end_ - 2))) eqn:Hsig.
    + destruct (parseToken_sigil _ Hsig) as [v ->].
      apply Exists_cons in Hex as [Hbad | Hex]; [congruence|].
      destruct (IH end_ ((if pos <? start
                          then nodes ++ [NText (mkTextNode (slice data pos start))]
                          else nodes) ++ [NVar v]) ltac:(lia) Hex)
        as (pre & token & post & -> & Hpre & Hbad & Hrun).
      exists (slice data (start + 2) (end_ - 2) :: pre), token, post.
      repeat split; [now constructor | assumption | exact Hrun].
    + rewrite (parseToken_no_sigil _ Hsig).
      exists [], (slice data (start + 2) (end_ - 2)), (markerBodies data end_).
      repeat split; [constructor | assumption].
  - inversion Hex.
Qed.

(** When every marker body has the sigil the parse succeeds. *)
Lemma ParseString_loop_accepts (data : string) (n pos : nat) (nodes : list Node) :
  String.length data - pos < n ->
  Forall (fun token => hasSigil token = true) (markerBodies data pos) ->
  exists t, ParseString_loop data pos nodes = (Some t, None).
Proof.
  revert pos nodes. induction n as [|n IH]; intros pos nodes Hn Hall; [lia|].
  rewrite markerBodies_step in Hall. rewrite ParseString_loop_step.
  destruct (findNextTemplate data pos) as [[start end_] [|]] eqn:Hfind; [|now eexists].
  pose proof (findNextTemplate_range _ _ _ _ Hfind) as Hrange.
  apply Forall_cons_iff in Hall as [Hsig Hall].
  destruct (parseToken_sigil _ Hsig) as [v ->].
  apply IH; [lia | exact Hall].
Qed.

(** [ParseString] returns a template and no error, or no template and an
    [ErrInvalidTokenSyntax]: nothing else. *)
Lemma ParseString_result (data : string) :
  (exists t, ParseString data = (Some t, None)) \/
  (exists token, ParseString data = (None, Some (ErrInvalidTokenSyntax token))).
Proof.
  destruct (List.Forall_Exists_dec (fun token => hasSigil token = true)
              (fun token => bool_dec (hasSigil token) true) (markerBodies data 0))
    as [Hall | Hex].
  - left. now apply (ParseString_loop_accepts data (S (String.length data))); [lia|].
  - right.
    assert (Hex' : Exists (fun token => hasSigil token = false) (markerBodies data 0)).
    { eapply List.Exists_impl; [|exact Hex]. intros token. apply not_true_is_false. }
    destruct (ParseString_loop_rejects data (S (String.length data)) 0 [] ltac:(lia) Hex')
      as (_ & bad & _ & _ & _ & _ & Hrun).
    now exists bad.
Qed.

(** C3. A marker body that, trimmed, does not start with the sigil fails
    the whole parse. When some marker body met by the scanner lacks the
    sigil, [parseToken] rejects the first such body with
    [ErrInvalidTokenSyntax] carrying that body, untrimmed, and [ParseString]
    returns that error and no [Template]. *)
Theorem ParseString_rejects_missing_sigil (data token : string) :
  In token (markerBodies data 0) ->
  hasSigil token = false ->
  exists pre bad post,
    markerBodies data 0 = pre ++ bad :: post /\
    Forall (fun token => hasSigil token = true) pre /\
    hasSigil bad = false /\
    parseToken bad = inr (ErrInvalidTokenSyntax bad) /\
    ParseString data = (None, Some (ErrInvalidTokenSyntax bad)).
Proof.
  intros Hin Hbad.
  assert (Hex : Exists (fun token => hasSigil token = false) (markerBodies data 0)).
  { apply List.Exists_exists. now exists token. }
  destruct (ParseString_loop_rejects data (S (String.length data)) 0 [] ltac:(lia) Hex)
    as (pre & bad & post & Hsplit & Hpre & Hsig & Hrun).
  exists pre, bad, post.
  repeat split; try assumption. now apply parseToken_no_sigil.
Qed.

Lemma ParseString_rejects_missing_sigil_witness :
  In "name" (markerBodies "Hello {{name}}!" 0) /\
  hasSigil "name" = false /\
  exists pre bad post,
    markerBodies "Hello {{name}}!" 0 = pre ++ bad :: post /\
    Forall (fun token => hasSigil token = true) pre /\
    hasSigil bad = false /\
    parseToken bad = inr (ErrInvalidTokenSyntax bad) /\
    ParseString "Hello {{name}}!" = (None, Some (ErrInvalidTokenSyntax bad)).
Proof.
  assert (Hin : In "name" (markerBodies "Hello {{name}}!" 0)) by (vm_compute; auto).
  assert (Hbad : hasSigil "name" = false) by reflexivity.
  split; [exact Hin | split; [exact Hbad|]].
  exact (ParseString_rejects_missing_sigil "Hello {{name}}!" "name" Hin Hbad).
Defined.

(** C8, as the claim states it, fails: after the marker of ["{{.a}}"] no
    opening marker is left and the remainder is empty, yet the loop adds no
    literal node: the variable node is the last node of the template. *)
Lemma final_empty_literal_counterexample :
  Index (drop 6 "{{.a}}") openMarker = None /\
  drop 6 "{{.a}}" = "" /\
  ParseString "{{.a}}" = (Some (mkTemplate [NVar (mkVarNode "a" [] "" false)]), None) /\
  ParseString "{{.a}}" <>
    (Some (mkTemplate [NVar (mkVarNode "a" [] "" false); NText (mkTextNode "")]), None).
Proof.
  repeat split; try reflexivity.
  vm_compute. discriminate.
Qed.

(** With no opening marker left the loop ends: the remainder, if any, is
    the last node. *)
Lemma ParseString_loop_no_marker (data : string) (pos : nat) (nodes : list Node) :
  Index (drop pos data) openMarker = None ->
  ParseString_loop data pos nodes =
    (Some (mkTemplate
             (nodes ++ match drop pos data with
                       | "" => []
                       | rest => [NText (mkTextNode rest)]
                       end)), None).
Proof.
  intros Hnone. rewrite ParseString_loop_step. unfold findNextTemplate. rewrite Hnone.
  destruct (drop pos data) as [|c rest]; simpl; [now rewrite app_nil_r | reflexivity].
Qed.

(** C8, amended. When no opening marker is left after the scan position,
    the loop ends without error; the remainder of the text becomes a final
    literal node when it is not empty, and no node is added when it is
    empty. In particular, when the marker found from an earlier position
    ends exactly there and nothing remains, the parse ends with that
    marker's node as the last node. *)
Theorem ParseString_loop_final_literal (data : string) (pos : nat) (nodes : list Node) :
  Index (drop pos data) openMarker = None ->
  ParseString_loop data pos nodes =
    (Some (mkTemplate
             (nodes ++ match drop pos data with
                       | "" => []
                       | rest => [NText (mkTextNode rest)]
                       end)), None) /\
  (forall (prev start : nat) (node : Node),
      findNextTemplate data prev = (start, pos, true) ->
      parseToken (slice data (start + 2) (pos - 2)) = inl node ->
      drop pos data = "" ->
      ParseString_loop data prev nodes =
        (Some (mkTemplate
                 ((if prev <? start
                   then nodes ++ [NText (mkTextNode (slice data prev start))]
                   else nodes) ++ [node])), None)).
Proof.
  intros Hnone. split; [now apply ParseString_loop_no_marker|].
  intros prev start node Hfind Htoken Hrest.
  rewrite ParseString_loop_step, Hfind, Htoken.
  rewrite (ParseString_loop_no_marker _ _ _ Hnone), Hrest. now rewrite app_nil_r.
Qed.

Lemma ParseString_loop_final_literal_witness :
  Index (drop 6 "{{.a}}") openMarker = None /\
  ParseString_loop "{{.a}}" 6 [NVar (mkVarNode "a" [] "" false)] =
    (Some (mkTemplate ([NVar (mkVarNode "a" [] "" false)] ++ [])), None).
Proof.
  assert (Hnone : Index (drop 6 "{{.a}}") openMarker = None) by reflexivity.
  split; [exact Hnone|].
  exact (proj1 (ParseString_loop_final_literal "{{.a}}" 6
                  [NVar (mkVarNode "a" [] "" false)] Hnone)).
Defined.

(** A literal node after nodes that rendered adds its text to what they
    rendered. *)
Lemma Execute_loop_app_text (r : Replacer) (text : string) (pre : list Node)
      (out : Builder) (rendered : string) :
  Execute_loop pre out r = (rendered, None) ->
  Execute_loop (pre ++ [NText (mkTextNode text)]) out r = (rendered +:+ text, None).
Proof.
  revert out. induction pre as [|n pre IH]; intros out; simpl.
  - now intros [= <-].
  - destruct (WriteTo n out r) as [out' [e|]]; [discriminate | apply IH].
Qed.

(** ** The token parser *)

Lemma last_cons_default {A} (x d : A) (l : list A) :
  List.last (x :: l) d = List.last l x.
Proof.
  revert x d. induction l as [|y l IH]; intros x d; [reflexivity|].
  change (List.last (x :: y :: l) d) with (List.last (y :: l) d).
  now rewrite !IH.
Qed.

(** The loop over the parts, from any state: the default is the last
    default part, the flag is raised by any default part, the other parts
    are appended in order. *)
Lemma fold_left_parseToken_part (parts : list string) (def : string) (hasDef : bool)
      (choices : list string) :
  fold_left parseToken_part parts (def, hasDef, choices) =
  (List.last (List.map (drop 1) (List.filter isDefaultPart (List.map TrimSpace parts))) def,
   hasDef || List.existsb isDefaultPart (List.map TrimSpace parts),
   choices ++ List.filter (fun part => negb (isDefaultPart part)) (List.map TrimSpace parts)).
Proof.
  revert def hasDef choices. induction parts as [|p parts IH]; intros def hasDef choices.
  - simpl. now rewrite orb_false_r, app_nil_r.
  - cbn [fold_left List.map List.filter List.existsb]. unfold parseToken_part at 2.
    fold (isDefaultPart (TrimSpace p)).
    destruct (isDefaultPart (TrimSpace p)) eqn:E; rewrite IH; cbn [negb].
    + rewrite orb_true_r. cbn [List.map orb]. now rewrite last_cons_default.
    + rewrite orb_false_l. rewrite <- app_assoc. reflexivity.
Qed.

(** C5. A marker body with a choice separator. When the trimmed token is
    the sigil followed by [body] and the first [":"] of [body] is at [idx],
    the key is the trimmed text before it, and the text after it is split on
    ["|"] into parts, each trimmed: the parts that do not start with ["@"]
    are the allowed values, in order and with duplicates; the default is
    the last part that starts with ["@"], without the ["@"]; the default is
    present exactly when there is such a part. *)
Theorem parseToken_choices_and_default (token body : string) (idx : nat) :
  TrimSpace token = varPrefix +:+ body ->
  Index body choiceSep = Some idx ->
  parseToken token =
    inl (NVar {|
      Key := TrimSpace (take idx body);
      Choices :=
        List.filter (fun part => negb (isDefaultPart part))
          (List.map TrimSpace (Split (drop (idx + 1) body) choiceDelim));
      Default :=
        List.last
          (List.map (drop 1)
             (List.filter isDefaultPart
                (List.map TrimSpace (Split (drop (idx + 1) body) choiceDelim))))
          "";
      HasDef :=
        List.existsb isDefaultPart
          (List.map TrimSpace (Split (drop (idx + 1) body) choiceDelim))
    |}).
Proof.
  intros Htrim Hidx. unfold parseToken. rewrite Htrim.
  replace (HasPrefix (varPrefix +:+ body) varPrefix) with true
    by (now destruct body).
  change (drop (String.length varPrefix) (varPrefix +:+ body)) with body.
  cbn [negb]. rewrite Hidx.
  change (String.length choiceSep) with 1.
  now rewrite fold_left_parseToken_part.
Qed.

Lemma parseToken_choices_and_default_witness :
  TrimSpace " .k : x | @d | y |x|@e " = varPrefix +:+ "k : x | @d | y |x|@e" /\
  Index "k : x | @d | y |x|@e" choiceSep = Some 2 /\
  parseToken " .k : x | @d | y |x|@e " =
    inl (NVar (mkVarNode "k" ["x"; "y"; "x"] "e" true)).
Proof.
  assert (Htrim : TrimSpace " .k : x | @d | y |x|@e " = varPrefix +:+ "k : x | @d | y |x|@e")
    by reflexivity.
  assert (Hidx : Index "k : x | @d | y |x|@e" choiceSep = Some 2) by reflexivity.
  split; [exact Htrim | split; [exact Hidx|]].
  exact (parseToken_choices_and_default " .k : x | @d | y |x|@e "
           "k : x | @d | y |x|@e" 2 Htrim Hidx).
Defined.

(** ** Supporting facts *)

(** The bound of [genSplit] is never reached: any bound from the length of
    the string on gives the same parts. *)
Lemma genSplit_fuel (sep : string) (n m : nat) (s : string) :
  sep <> "" ->
  String.length s <= n -> String.length s <= m ->
  genSplit n s sep = genSplit m s sep.
Proof.
  intros Hsep. revert m s. induction n as [|n IH]; intros m s Hn Hm.
  - destruct s; [|simpl in Hn; lia].
    destruct m; [reflexivity|]. cbn [genSplit].
    rewrite Index_nil. destruct sep; [contradiction | reflexivity].
  - cbn [genSplit]. destruct (Index s sep) as [k|] eqn:Hk.
    + pose proof (Index_bound _ _ _ Hk) as Hb.
      assert (0 < String.length sep) by (destruct sep; [contradiction | simpl; lia]).
      destruct m as [|m]; [lia|]. cbn [genSplit]. rewrite Hk. f_equal.
      apply IH; rewrite length_drop; lia.
    + destruct m; [reflexivity|]. cbn [genSplit]. now rewrite Hk.
Qed.

(** Whenever [ExecuteTo] succeeds, on any sink, [Execute] succeeds. *)
Lemma ExecuteTo_success_Execute {W} `{Writer W} (r : Replacer) (nodes : list Node)
      (w w1 : W) (out : Builder) :
  ExecuteTo_loop nodes w r = (w1, None) ->
  exists s, Execute_loop nodes out r = (s, None).
Proof.
  revert w out. induction nodes as [|n rest IH]; intros w out; simpl; [now eexists|].
  destruct (NodeOutcome_total r n) as [[s|err] Ho];
    rewrite (WriteTo_outcome r n _ w Ho), (WriteTo_outcome r n _ out Ho); simpl.
  - destruct (WriteString w s) as [w2 [e|]]; [discriminate|]. apply IH.
  - discriminate.
Qed.

(** A sink with room for three bytes: the first literal fails with the
    sink's own error, which [ExecuteTo] returns. *)
Example ExecuteTo_short_write :
  ExecuteTo greetingTemplate (mkLimited "" 3) (ReplacerFuncFromMap ∅) =
    (mkLimited "Hel" 0, Some (WriterError "short write")).
Proof. reflexivity. Qed.

(** *** The examples of the specification (section 8) *)

Example no_markers : render "Hello World!" ∅ = ("Hello World!", None).
Proof. reflexivity. Qed.

Example unterminated : render "Hello {{.name" {[ "name" := "World" ]} = ("Hello {{.name", None).
Proof. reflexivity. Qed.

Example several_unterminated :
  render "{{.a {{.b {{.c" ∅ = ("{{.a {{.b {{.c", None).
Proof. reflexivity. Qed.

Example default_fallback : render "Hello {{.name:@World}}!" ∅ = ("Hello World!", None).
Proof. reflexivity. Qed.

Example choice_accepted :
  render "Hello {{.greeting:Hi|Hello|@Hey}}!" {[ "greeting" := "Hello" ]} =
    ("Hello Hello!", None).
Proof. reflexivity. Qed.

Example choice_rejected :
  render "Hello {{.greeting:Hi|Hello|@Hey}}!" {[ "greeting" := "Bye" ]} =
    ("", Some (ErrInvalidValue "greeting" "Bye" ["Hi"; "Hello"])).
Proof. reflexivity. Qed.

Example missing_key : render "Hello {{.name}}!" ∅ = ("", Some (ErrNoReplacement "name")).
Proof. reflexivity. Qed.

Example invalid_syntax :
  ParseString "Hello {{name}}!" = (None, Some (ErrInvalidTokenSyntax "name")).
Proof. reflexivity. Qed.

Example greetingTemplate_parsed :
  ParseString "Hello {{.greeting:Hi|Hello|@Hey}}!" = (Some greetingTemplate, None).
Proof. reflexivity. Qed.

(** A no-break space (U+00A0) before the sigil and an em space (U+2003)
    after the key are trimmed like ASCII blanks. *)
Example unicode_blanks :
  parseToken (String (ascii_of_nat 194) (String (ascii_of_nat 160) ".key"
              +:+ String (ascii_of_nat 226) (String (ascii_of_nat 128)
                    (String (ascii_of_nat 131) "")))) =
    inl (NVar (mkVarNode "key" [] "" false)).
Proof. reflexivity. Qed.

(** *** The regex engine panics where the node engine returns errors *)

Lemma Legacy_missing_key_panics (replacements : gmap string string) (key params : string) :
  replacements !! key = None ->
  snd (Legacy.parseParams params) = "" ->
  Legacy.replaceMatch replacements key params = Legacy.PanicMissingKey key.
Proof.
  unfold Legacy.replaceMatch. intros -> Hdef.
  destruct (Legacy.parseParams params) as [allowed def]. simpl in Hdef. now subst def.
Qed.

Lemma Legacy_contains_In (slice : list string) (val : string) :
  Legacy.contains slice val = true <-> In val slice.
Proof. exact (isValidChoice_loop_In slice val). Qed.

Lemma Legacy_invalid_value_panics (replacements : gmap string string)
      (key params value : string) :
  replacements !! key = Some value ->
  fst (Legacy.parseParams params) <> [] ->
  ~ In value (fst (Legacy.parseParams params)) ->
  Legacy.replaceMatch replacements key params =
    Legacy.PanicInvalidValue value key (fst (Legacy.parseParams params)).
Proof.
  unfold Legacy.replaceMatch. intros -> Hne Hnin.
  destruct (Legacy.parseParams params) as [allowed def]. simpl in *.
  destruct (Legacy.contains allowed value) eqn:Hc.
  - apply Legacy_contains_In in Hc. contradiction.
  - destruct allowed; [contradiction | reflexivity].
Qed.

(** * Further properties of the code *)

(** ** Slices *)

Lemma take_drop (n : nat) (s : string) : take n s +:+ drop n s = s.
Proof.
  revert s. induction n as [|n IH]; intros [|c s]; try reflexivity.
  cbn [take drop]. rewrite append_cons. now rewrite IH.
Qed.

Lemma length_take (n : nat) (s : string) :
  String.length (take n s) = Nat.min n (String.length s).
Proof.
  revert s. induction n as [|n IH]; intros [|c s]; simpl; auto.
Qed.

Lemma length_append (a b : string) :
  String.length (a +:+ b) = String.length a + String.length b.
Proof.
  induction a as [|c a IH]; [reflexivity|]. rewrite append_cons. simpl. now rewrite IH.
Qed.

Lemma HasPrefix_split (s p : string) :
  HasPrefix s p = true -> s = p +:+ drop (String.length p) s.
Proof.
  unfold HasPrefix. revert s. induction p as [|c p IH]; intros s.
  - reflexivity.
  - destruct s as [|d s]; simpl; [discriminate|].
    destruct (Ascii.ascii_dec c d) as [->|]; [|discriminate].
    intros E. rewrite append_cons. now rewrite <- (IH s E).
Qed.

Lemma HasPrefix_append (p s : string) : HasPrefix (p +:+ s) p = true.
Proof.
  unfold HasPrefix. induction p as [|c p IH].
  - now destruct s.
  - rewrite append_cons. simpl. destruct (Ascii.ascii_dec c c); [exact IH | contradiction].
Qed.

Lemma drop_take (j k : nat) (s : string) : drop j (take k s) = take (k - j) (drop j s).
Proof.
  revert k s. induction j as [|j IH]; intros k s.
  - now rewrite Nat.sub_0_r.
  - destruct k as [|k]; destruct s as [|c s]; simpl; try reflexivity.
    + now destruct (k - j).
    + apply IH.
Qed.

Lemma HasPrefix_take (n : nat) (s p : string) :
  HasPrefix (take n s) p = true -> HasPrefix s p = true.
Proof.
  unfold HasPrefix. revert n s. induction p as [|c p IH]; intros n s.
  - now destruct s.
  - destruct n as [|n]; destruct s as [|d s]; simpl; try discriminate.
    destruct (Ascii.ascii_dec c d); [apply IH | discriminate].
Qed.

(** No occurrence before the one [Index] returns. *)
Lemma Index_first (s sep : string) (k j : nat) :
  Index s sep = Some k -> j < k -> HasPrefix (drop j s) sep = false.
Proof.
  intros Hk Hj. destruct (HasPrefix (drop j s) sep) eqn:E; [|reflexivity].
  destruct (Index_leftmost s sep j E) as (k' & Hk' & Hle).
  rewrite Hk in Hk'. injection Hk' as <-. lia.
Qed.

Lemma Index_None_intro (s sep : string) :
  (forall j, HasPrefix (drop j s) sep = false) -> Index s sep = None.
Proof.
  intros Hno. destruct (Index s sep) as [k|] eqn:Hk; [|reflexivity].
  apply Index_HasPrefix in Hk. now rewrite Hno in Hk.
Qed.

Lemma Index_None_drop (s sep : string) (k : nat) :
  Index s sep = None -> Index (drop k s) sep = None.
Proof.
  intros Hnone. apply Index_None_intro. intros j. rewrite drop_drop.
  now apply Index_None.
Qed.

Lemma Index_None_take (s sep : string) (k : nat) :
  Index s sep = None -> Index (take k s) sep = None.
Proof.
  intros Hnone. apply Index_None_intro. intros j.
  destruct (HasPrefix (drop j (take k s)) sep) eqn:E; [|reflexivity].
  rewrite drop_take in E. apply HasPrefix_take in E.
  now rewrite (Index_None _ _ j Hnone) in E.
Qed.

(** The text before the first occurrence holds no occurrence. *)
Lemma Index_take_None (s sep : string) (k : nat) :
  sep <> "" -> Index s sep = Some k -> Index (take k s) sep = None.
Proof.
  intros Hsep Hk. apply Index_None_intro. intros j.
  destruct (HasPrefix (drop j (take k s)) sep) eqn:E; [|reflexivity].
  pose proof (HasPrefix_length _ _ E) as Hlen.
  rewrite length_drop, length_take in Hlen.
  assert (0 < String.length sep) by (destruct sep; [contradiction | simpl; lia]).
  rewrite drop_take in E. apply HasPrefix_take in E.
  rewrite (Index_first s sep k j Hk) in E; [discriminate | lia].
Qed.

Lemma take_app_length (a b : string) : take (String.length a) (a +:+ b) = a.
Proof.
  induction a as [|c a IH]; [reflexivity|].
  rewrite append_cons. simpl. now rewrite IH.
Qed.

(** ** The scanner *)

(** From the scan position on, the text is the literal before the marker,
    the marker between its delimiters, and the rest. *)
Lemma marker_tiling (data : string) (pos start end_ : nat) :
  findNextTemplate data pos = (start, end_, true) ->
  drop pos data =
    slice data pos start +:+
    openMarker +:+ slice data (start + 2) (end_ - 2) +:+ closeMarker +:+
    drop end_ data.
Proof.
  intros Hfind.
  destruct (findNextTemplate_found _ _ _ _ Hfind) as (o & c & Ho & -> & Hc & ->).
  assert (E1 : drop pos data = take o (drop pos data) +:+ drop (o + pos) data).
  { rewrite <- (take_drop o (drop pos data)) at 1. rewrite drop_drop.
    now replace (pos + o) with (o + pos) by lia. }
  assert (E2 : drop (o + pos) data = openMarker +:+ drop (o + pos + 2) data).
  { pose proof (Index_HasPrefix _ _ _ Ho) as Hopen. rewrite drop_drop in Hopen.
    replace (pos + o) with (o + pos) in Hopen by lia.
    rewrite (HasPrefix_split _ _ Hopen) at 1. now rewrite drop_drop. }
  assert (E3 : drop (o + pos + 2) data =
               take c (drop (o + pos + 2) data) +:+ drop (o + pos + 2 + c) data).
  { rewrite <- (take_drop c (drop (o + pos + 2) data)) at 1. now rewrite drop_drop. }
  assert (E4 : drop (o + pos + 2 + c) data =
               closeMarker +:+ drop (c + (o + pos + 2) + 2) data).
  { pose proof (Index_HasPrefix _ _ _ Hc) as Hclose. rewrite drop_drop in Hclose.
    rewrite (HasPrefix_split _ _ Hclose) at 1. rewrite drop_drop.
    do 2 f_equal. change (String.length closeMarker) with 2. lia. }
  unfold slice.
  replace (o + pos - pos) with o by lia.
  replace (c + (o + pos + 2) + 2 - 2 - (o + pos + 2)) with c by lia.
  etransitivity; [exact E1|]. f_equal.
  etransitivity; [exact E2|]. f_equal.
  etransitivity; [exact E3|]. f_equal. exact E4.
Qed.

(** X1. What [findNextTemplate] finds is the first marker at or after the
    scan position. The span lies in the text, starts with ["{{"] and ends
    with ["}}"]; the opening is the leftmost one (no ["{{"] starts at any
    offset from the scan position up to it, so none lies in the text
    skipped, nor straddles its end) and the closing is the first one after
    the opening (no ["}}"] starts at any offset of the body, so the body
    holds none). *)
Theorem findNextTemplate_span (data : string) (pos start end_ : nat) :
  findNextTemplate data pos = (start, end_, true) ->
  pos <= start /\ start + 4 <= end_ /\ end_ <= String.length data /\
  slice data start end_ =
    openMarker +:+ slice data (start + 2) (end_ - 2) +:+ closeMarker /\
  (forall j, pos <= j < start -> HasPrefix (drop j data) openMarker = false) /\
  (forall j, start + 2 <= j < end_ - 2 -> HasPrefix (drop j data) closeMarker = false) /\
  Index (slice data pos start) openMarker = None /\
  Index (slice data (start + 2) (end_ - 2)) closeMarker = None.
Proof.
  intros Hfind.
  pose proof (findNextTemplate_range _ _ _ _ Hfind) as (Hpos & Hlen & Hend).
  pose proof (marker_tiling _ _ _ _ Hfind) as Htile.
  destruct (findNextTemplate_found _ _ _ _ Hfind) as (o & c & Ho & Hstart & Hc & Hend').
  repeat (split; [assumption|]). split; [|split; [|split; [|split]]].
  - assert (Hself : findNextTemplate data start = (start, end_, true)).
    { unfold findNextTemplate.
      pose proof (Index_HasPrefix _ _ _ Ho) as Hopen.
      rewrite drop_drop in Hopen. replace (pos + o) with start in Hopen by lia.
      rewrite (Index_here _ _ Hopen). cbn [Nat.add].
      change (String.length openMarker) with 2. rewrite Hc.
      change (String.length closeMarker) with 2. repeat f_equal; lia. }
    pose proof (marker_tiling _ _ _ _ Hself) as Hself_tile.
    unfold slice at 1 in Hself_tile. rewrite Nat.sub_diag in Hself_tile.
    cbn [take] in Hself_tile. change ("" +:+ ?x) with x in Hself_tile.
    unfold slice at 1. rewrite Hself_tile.
    set (body := slice data (start + 2) (end_ - 2)).
    assert (Hbody : String.length body = end_ - 4 - start).
    { subst body. unfold slice. rewrite length_take, length_drop. lia. }
    rewrite <- !append_assoc.
    replace (end_ - start)
      with (String.length ((openMarker +:+ body) +:+ closeMarker)).
    + apply take_app_length.
    + rewrite !length_append, Hbody. simpl. lia.
  - intros j Hj.
    pose proof (Index_first _ _ o (j - pos) Ho ltac:(lia)) as Hno.
    rewrite drop_drop in Hno. now replace (pos + (j - pos)) with j in Hno by lia.
  - intros j Hj.
    pose proof (Index_first _ _ c (j - (start + 2)) Hc ltac:(lia)) as Hno.
    rewrite drop_drop in Hno.
    now replace (start + 2 + (j - (start + 2))) with j in Hno by lia.
  - unfold slice. replace (start - pos) with o by lia.
    apply Index_take_None; [discriminate | exact Ho].
  - unfold slice. replace (end_ - 2 - (start + 2)) with c by lia.
    apply Index_take_None; [discriminate | exact Hc].
Qed.

(** In ["a{{{.x}}}"] three opening braces meet three closing ones: the
    marker opens at the first pair and closes at the first pair. *)
Lemma findNextTemplate_span_witness :
  findNextTemplate "a{{{.x}}}" 0 = (1, 8, true) /\
  0 <= 1 /\ 1 + 4 <= 8 /\ 8 <= String.length "a{{{.x}}}" /\
  slice "a{{{.x}}}" 1 8 =
    openMarker +:+ slice "a{{{.x}}}" (1 + 2) (8 - 2) +:+ closeMarker /\
  (forall j, 0 <= j < 1 -> HasPrefix (drop j "a{{{.x}}}") openMarker = false) /\
  (forall j, 1 + 2 <= j < 8 - 2 -> HasPrefix (drop j "a{{{.x}}}") closeMarker = false) /\
  Index (slice "a{{{.x}}}" 0 1) openMarker = None /\
  Index (slice "a{{{.x}}}" (1 + 2) (8 - 2)) closeMarker = None.
Proof.
  assert (Hfind : findNextTemplate "a{{{.x}}}" 0 = (1, 8, true)) by reflexivity.
  split; [exact Hfind|].
  exact (findNextTemplate_span "a{{{.x}}}" 0 1 8 Hfind).
Defined.

(** ** What [ParseString] builds *)

Lemma parseToken_inl (token : string) (node : Node) :
  parseToken token = inl node -> exists v, node = NVar v /\ hasSigil token = true.
Proof.
  intros Hp. destruct (hasSigil token) eqn:Hsig.
  - destruct (parseToken_sigil _ Hsig) as [v Hv]. exists v. split; congruence.
  - rewrite (parseToken_no_sigil _ Hsig) in Hp. discriminate.
Qed.

Lemma varNodes_app (a b : list Node) : varNodes (a ++ b) = varNodes a ++ varNodes b.
Proof.
  induction a as [|[t|v] a IH]; simpl; [reflexivity | exact IH | now rewrite IH].
Qed.






Lemma ParseString_loop_varNodes (data : string) (n pos : nat) (nodes : list Node)
      (bodies : list string) (t : Template) :
  String.length data - pos < n ->
  List.map parseToken bodies = List.map (fun v => inl (NVar v)) (varNodes nodes) ->
  ParseString_loop data pos nodes = (Some t, None) ->
  List.map parseToken (bodies ++ markerBodies data pos) =
    List.map (fun v => inl (NVar v)) (varNodes (Nodes t)).
Proof.
  revert pos nodes bodies. induction n as [|n IH]; intros pos nodes bodies Hn Hmap; [lia|].
  rewrite markerBodies_step, ParseString_loop_step.
  destruct (findNextTemplate data pos) as [[start end_] [|]] eqn:Hfind.
  - pose proof (findNextTemplate_range _ _ _ _ Hfind) as Hrange.
    destruct (parseToken (slice data (start + 2) (end_ - 2))) as [node|err] eqn:Htok;
      [|discriminate].
    destruct (parseToken_inl _ _ Htok) as (v & -> & _).
    intros Hrun.
    set (nodes' := if pos <? start
                   then nodes ++ [NText (mkTextNode (slice data pos start))]
                   else nodes) in *.
    assert (Hvars : varNodes nodes' = varNodes nodes).
    { subst nodes'. destruct (pos <? start); [|reflexivity].
      rewrite varNodes_app. simpl. now rewrite app_nil_r. }
    specialize (IH end_ (nodes' ++ [NVar v])
                   (bodies ++ [slice data (start + 2) (end_ - 2)]) ltac:(lia)).
    rewrite <- app_assoc in IH. simpl in IH. apply IH; [|exact Hrun].
    rewrite List.map_app, varNodes_app, List.map_app, Hvars. simpl. rewrite Htok.
    now rewrite Hmap.
  - intros [= <-]. cbn [Nodes]. rewrite app_nil_r, Hmap. f_equal.
    destruct (0 <? String.length (drop pos data)); [|reflexivity].
    rewrite varNodes_app. simpl. now rewrite app_nil_r.
Qed.

(** X3. One variable node per marker. The variable nodes of a parsed
    template are, in order, what [parseToken] returns for the marker bodies
    of the input: no marker is dropped and no variable node has another
    origin. *)
Theorem ParseString_varNodes (data : string) (t : Template) :
  ParseString data = (Some t, None) ->
  List.map parseToken (markerBodies data 0) =
    List.map (fun v => inl (NVar v)) (varNodes (Nodes t)).
Proof.
  intros Hparse.
  exact (ParseString_loop_varNodes data (S (String.length data)) 0 [] [] t
           ltac:(lia) eq_refl Hparse).
Qed.

Lemma ParseString_varNodes_witness :
  ParseString "{{.a}} and {{ .b:x|@y }}" =
    (Some (mkTemplate [NVar (mkVarNode "a" [] "" false);
                       NText (mkTextNode " and ");
                       NVar (mkVarNode "b" ["x"] "y" true)]), None) /\
  List.map parseToken (markerBodies "{{.a}} and {{ .b:x|@y }}" 0) =
    [inl (NVar (mkVarNode "a" [] "" false)); inl (NVar (mkVarNode "b" ["x"] "y" true))].
Proof.
  assert (Hparse : ParseString "{{.a}} and {{ .b:x|@y }}" =
    (Some (mkTemplate [NVar (mkVarNode "a" [] "" false);
                       NText (mkTextNode " and ");
                       NVar (mkVarNode "b" ["x"] "y" true)]), None)) by reflexivity.
  split; [exact Hparse|].
  exact (ParseString_varNodes "{{.a}} and {{ .b:x|@y }}" _ Hparse).
Defined.

Lemma endsWithText_app (a : bool) (xs ys : list Node) :
  endsWithText a (xs ++ ys) = endsWithText (endsWithText a xs) ys.
Proof.
  revert a. induction xs as [|[t|v] xs IH]; intros a; simpl; auto.
Qed.

Lemma literalsMaximal_app (a : bool) (xs ys : list Node) :
  literalsMaximal a (xs ++ ys) =
  literalsMaximal a xs && literalsMaximal (endsWithText a xs) ys.
Proof.
  revert a. induction xs as [|[t|v] xs IH]; intros a; simpl.
  - reflexivity.
  - rewrite IH. now rewrite !andb_assoc.
  - apply IH.
Qed.

Lemma literalsMaximal_nonempty (a : bool) (nodes : list Node) (txt : TextNode) :
  literalsMaximal a nodes = true -> In (NText txt) nodes -> Text txt <> "".
Proof.
  revert a. induction nodes as [|[t|v] nodes IH]; intros a Hok Hin; simpl in *.
  - contradiction.
  - apply andb_prop in Hok as [Hhead Hrest]. apply andb_prop in Hhead as [_ Hlen].
    destruct Hin as [[= <-] | Hin]; [|now apply (IH true)].
    intros E. rewrite E in Hlen. discriminate.
  - destruct Hin as [Hin | Hin]; [discriminate | now apply (IH false)].
Qed.

Lemma literalsMaximal_no_neighbours (a : bool) (before after : list Node)
      (t1 t2 : TextNode) :
  literalsMaximal a (before ++ NText t1 :: NText t2 :: after) = false.
Proof.
  rewrite literalsMaximal_app. simpl.
  rewrite !andb_false_r. reflexivity.
Qed.

Lemma ParseString_loop_literals (data : string) (n pos : nat) (nodes : list Node)
      (t : Template) :
  String.length data - pos < n ->
  literalsMaximal false nodes = true ->
  endsWithText false nodes = false ->
  ParseString_loop data pos nodes = (Some t, None) ->
  literalsMaximal false (Nodes t) = true.
Proof.
  revert pos nodes. induction n as [|n IH]; intros pos nodes Hn Hok Hend; [lia|].
  rewrite ParseString_loop_step.
  destruct (findNextTemplate data pos) as [[start end_] [|]] eqn:Hfind.
  - pose proof (findNextTemplate_range _ _ _ _ Hfind) as Hrange.
    destruct (parseToken (slice data (start + 2) (end_ - 2))) as [node|err] eqn:Htok;
      [|discriminate].
    destruct (parseToken_inl _ _ Htok) as (v & -> & _).
    apply IH; [lia | |].
    + rewrite literalsMaximal_app.
      destruct (Nat.ltb_spec pos start) as [Hlt|Hge].
      * rewrite literalsMaximal_app, endsWithText_app, Hok, Hend. simpl.
        unfold slice. rewrite length_take, length_drop.
        destruct (Nat.ltb_spec 0 (Nat.min (start - pos) (String.length data - pos)));
          [reflexivity | lia].
      * rewrite Hok, Hend. reflexivity.
    + rewrite endsWithText_app. reflexivity.
  - intros [= <-]. cbn [Nodes].
    destruct (0 <? String.length (drop pos data)) eqn:Hlen; [|exact Hok].
    rewrite literalsMaximal_app, Hok, Hend. simpl. now rewrite Hlen.
Qed.

(** X4. Literals are maximal. A parsed template has no empty literal node
    and no two literal nodes side by side: between two variable nodes, and
    before the first and after the last, there is at most one literal, and
    it holds text. *)
Theorem ParseString_literals_maximal (data : string) (t : Template) :
  ParseString data = (Some t, None) ->
  (forall txt, In (NText txt) (Nodes t) -> Text txt <> "") /\
  (forall before t1 t2 after, Nodes t <> before ++ NText t1 :: NText t2 :: after).
Proof.
  intros Hparse.
  assert (Hok : literalsMaximal false (Nodes t) = true).
  { exact (ParseString_loop_literals data (S (String.length data)) 0 [] t
             ltac:(lia) eq_refl eq_refl Hparse). }
  split.
  - intros txt. now apply literalsMaximal_nonempty with (a := false).
  - intros before t1 t2 after E. rewrite E in Hok.
    now rewrite literalsMaximal_no_neighbours in Hok.
Qed.

Lemma ParseString_literals_maximal_witness :
  ParseString "{{.a}}{{.b}} {{.c}}" =
    (Some (mkTemplate [NVar (mkVarNode "a" [] "" false);
                       NVar (mkVarNode "b" [] "" false);
                       NText (mkTextNode " ");
                       NVar (mkVarNode "c" [] "" false)]), None) /\
  (forall txt,
      In (NText txt) [NVar (mkVarNode "a" [] "" false);
                      NVar (mkVarNode "b" [] "" false);
                      NText (mkTextNode " ");
                      NVar (mkVarNode "c" [] "" false)] -> Text txt <> "") /\
  (forall before t1 t2 after,
      [NVar (mkVarNode "a" [] "" false);
       NVar (mkVarNode "b" [] "" false);
       NText (mkTextNode " ");
       NVar (mkVarNode "c" [] "" false)] <> before ++ NText t1 :: NText t2 :: after).
Proof.
  assert (Hparse : ParseString "{{.a}}{{.b}} {{.c}}" =
    (Some (mkTemplate [NVar (mkVarNode "a" [] "" false);
                       NVar (mkVarNode "b" [] "" false);
                       NText (mkTextNode " ");
                       NVar (mkVarNode "c" [] "" false)]), None)) by reflexivity.
  split; [exact Hparse|].
  exact (ParseString_literals_maximal "{{.a}}{{.b}} {{.c}}" _ Hparse).
Defined.

(** X5. [ParseString] succeeds exactly when every marker body the scanner
    meets starts, trimmed, with the sigil; when it fails it returns no
    template, and the error is [ErrInvalidTokenSyntax] for one of the
    marker bodies. No other error leaves the parser. *)
Theorem ParseString_succeeds_iff (data : string) :
  ((exists t, ParseString data = (Some t, None)) <->
   Forall (fun token => hasSigil token = true) (markerBodies data 0)) /\
  (forall res err,
      ParseString data = (res, Some err) ->
      res = None /\
      exists token, In token (markerBodies data 0) /\ err = ErrInvalidTokenSyntax token).
Proof.
  assert (Hcases :
    Forall (fun token => hasSigil token = true) (markerBodies data 0) /\
      (exists t, ParseString data = (Some t, None)) \/
    exists token, In token (markerBodies data 0) /\
      ParseString data = (None, Some (ErrInvalidTokenSyntax token))).
  { destruct (List.Forall_Exists_dec (fun token => hasSigil token = true)
                (fun token => bool_dec (hasSigil token) true) (markerBodies data 0))
      as [Hall | Hex].
    - left. split; [exact Hall|].
      now apply (ParseString_loop_accepts data (S (String.length data))); [lia|].
    - right.
      assert (Hex' : Exists (fun token => hasSigil token = false) (markerBodies data 0)).
      { eapply List.Exists_impl; [|exact Hex]. intros token. apply not_true_is_false. }
      destruct (ParseString_loop_rejects data (S (String.length data)) 0 []
                  ltac:(lia) Hex')
        as (pre & bad & post & Hsplit & _ & _ & Hrun).
      exists bad. split; [|exact Hrun]. rewrite Hsplit. apply in_or_app. right. now left. }
  split; [split|].
  - intros [t Ht]. destruct Hcases as [[Hall _] | (token & _ & Hrun)]; [exact Hall|].
    unfold ParseString in *. congruence.
  - intros Hall. destruct Hcases as [[_ Hok] | (token & Hin & Hrun)]; [exact Hok|].
    exfalso.
    destruct (ParseString_loop_accepts data (S (String.length data)) 0 []
                ltac:(lia) Hall) as [t Ht].
    unfold ParseString in *. congruence.
  - intros res err Hrun. destruct Hcases as [[_ [t Ht]] | (token & Hin & Hrun')].
    + congruence.
    + rewrite Hrun' in Hrun. injection Hrun as <- <-. split; [reflexivity|].
      now exists token.
Qed.

Lemma ParseString_succeeds_iff_witness :
  Forall (fun token => hasSigil token = true) (markerBodies "a{{.x}}b{{ .y }}" 0) /\
  exists t, ParseString "a{{.x}}b{{ .y }}" = (Some t, None).
Proof.
  assert (Hall : Forall (fun token => hasSigil token = true)
                        (markerBodies "a{{.x}}b{{ .y }}" 0)).
  { vm_compute. repeat constructor. }
  split; [exact Hall|].
  exact (proj2 (proj1 (ParseString_succeeds_iff "a{{.x}}b{{ .y }}")) Hall).
Defined.



(** ** Rendering *)

Lemma Execute_loop_emits (r : Replacer) (nodes : list Node) (outs : list string)
      (out : Builder) :
  Forall2 (fun n s => NodeOutcome r n (Emit s)) nodes outs ->
  Execute_loop nodes out r = (Builder_String out +:+ String.concat "" outs, None).
Proof.
  intros Hall. revert out. induction Hall as [|n s nodes outs Ho _ IH]; intros out.
  - simpl. now rewrite append_nil_r.
  - rewrite concat_cons. simpl. rewrite (WriteTo_outcome r n _ out Ho). simpl.
    rewrite IH. cbn [Builder_String]. now rewrite append_assoc.
Qed.

(** X7. [Execute] succeeds exactly when every node has a value, and then
    returns the values concatenated in node order: a literal's value is its
    text, a variable node's the found value (a member of the allowed values
    when there are any) or, for a key that is not found, the default. *)
Theorem Execute_succeeds_iff (t : Template) (r : Replacer) (s : string) :
  Execute t r = (s, None) <->
  exists outs,
    Forall2 (fun n out => NodeOutcome r n (Emit out)) (Nodes t) outs /\
    s = String.concat "" outs.
Proof.
  unfold Execute. split.
  - intros Hrun.
    destruct (Execute_loop_outcomes r (Nodes t) (mkBuilder ""))
      as [(outs & Hall & Hrun') | (pre & node & post & outs & err & _ & _ & _ & Hrun')];
      rewrite Hrun in Hrun'; [|discriminate].
    exists outs. split; [exact Hall|]. now injection Hrun'.
  - intros (outs & Hall & ->). now rewrite (Execute_loop_emits r _ outs).
Qed.

Lemma Execute_succeeds_iff_witness :
  Execute greetingTemplate helloReplacer = ("Hello Hello!", None) /\
  exists outs,
    Forall2 (fun n out => NodeOutcome helloReplacer n (Emit out))
            (Nodes greetingTemplate) outs /\
    "Hello Hello!" = String.concat "" outs.
Proof.
  assert (Hrun : Execute greetingTemplate helloReplacer = ("Hello Hello!", None))
    by reflexivity.
  split; [exact Hrun|].
  exact (proj1 (Execute_succeeds_iff greetingTemplate helloReplacer "Hello Hello!") Hrun).
Defined.

(** X8. The errors of [Execute] are the two resolution failures, each for a
    variable node of the template: [ErrNoReplacement] with the key of a
    node whose key the Replacer does not find and which has no default, or
    [ErrInvalidValue] with the key, the found value and the allowed values
    of a node whose found value is not among its allowed values. *)
Theorem Execute_error_kinds (t : Template) (r : Replacer) (s : string) (err : error) :
  Execute t r = (s, Some err) ->
  exists v,
    In (NVar v) (Nodes t) /\
    ((err = ErrNoReplacement (Key v) /\
      snd (Get r (Key v)) = false /\ HasDef v = false) \/
     (exists val,
        err = ErrInvalidValue (Key v) val (Choices v) /\
        Get r (Key v) = (val, true) /\
        Choices v <> [] /\ ~ In val (Choices v))).
Proof.
  unfold Execute. intros Hrun.
  destruct (Execute_loop_outcomes r (Nodes t) (mkBuilder ""))
    as [(outs & _ & Hrun') | (pre & node & post & outs & err' & Hsplit & _ & Hfail & Hrun')];
    rewrite Hrun in Hrun'; [discriminate|].
  injection Hrun' as _ <-.
  inversion Hfail as [|v o Hres]; subst.
  exists v. split; [rewrite Hsplit; apply in_or_app; right; now left|].
  inversion Hres as [val Hget Hne Hnin | | zero Hget Hdef |]; subst.
  - right. now exists val.
  - left. now rewrite Hget.
Qed.

Lemma Execute_error_kinds_witness :
  Execute greetingTemplate byeReplacer =
    ("", Some (ErrInvalidValue "greeting" "Bye" ["Hi"; "Hello"])) /\
  exists v,
    In (NVar v) (Nodes greetingTemplate) /\
    ((ErrInvalidValue "greeting" "Bye" ["Hi"; "Hello"] = ErrNoReplacement (Key v) /\
      snd (Get byeReplacer (Key v)) = false /\ HasDef v = false) \/
     (exists val,
        ErrInvalidValue "greeting" "Bye" ["Hi"; "Hello"] =
          ErrInvalidValue (Key v) val (Choices v) /\
        Get byeReplacer (Key v) = (val, true) /\
        Choices v <> [] /\ ~ In val (Choices v))).
Proof.
  assert (Hrun : Execute greetingTemplate byeReplacer =
                 ("", Some (ErrInvalidValue "greeting" "Bye" ["Hi"; "Hello"])))
    by reflexivity.
  split; [exact Hrun|].
  exact (Execute_error_kinds greetingTemplate byeReplacer _ _ Hrun).
Defined.

(** [Execute] from a builder that already holds text. *)
Lemma Execute_loop_builder (r : Replacer) (nodes : list Node) (out : Builder) :
  Execute_loop nodes out r =
  match Execute_loop nodes (mkBuilder "") r with
  | (s, None) => (Builder_String out +:+ s, None)
  | (_, Some err) => ("", Some err)
  end.
Proof.
  revert out. induction nodes as [|n rest IH]; intros out.
  - simpl. now rewrite append_nil_r.
  - destruct (NodeOutcome_total r n) as [[s|err] Ho]; simpl;
      rewrite (WriteTo_outcome r n _ out Ho), (WriteTo_outcome r n _ (mkBuilder "") Ho);
      simpl; [|reflexivity].
    rewrite (IH (mkBuilder (Builder_String out +:+ s))), (IH (mkBuilder ("" +:+ s))).
    destruct (Execute_loop rest (mkBuilder "") r) as [x [e|]]; [reflexivity|].
    cbn [Builder_String]. now rewrite append_assoc.
Qed.

Lemma Execute_loop_app (r : Replacer) (a b : list Node) (out : Builder) :
  Execute_loop (a ++ b) out r =
  match Execute_loop a out r with
  | (s, None) => Execute_loop b (mkBuilder s) r
  | (_, Some err) => ("", Some err)
  end.
Proof.
  revert out. induction a as [|n a IH]; intros out; simpl.
  - now destruct out.
  - destruct (WriteTo n out r) as [out' [e|]]; [reflexivity | apply IH].
Qed.

(** X9. Rendering composes. A template whose nodes are those of [a]
    followed by those of [b] renders to the rendering of [a] followed by the
    rendering of [b]; it fails with the error of [a] when [a] fails, and
    with the error of [b] when only [b] fails. *)
Theorem Execute_app (a b : list Node) (r : Replacer) :
  Execute (mkTemplate (a ++ b)) r =
  match Execute (mkTemplate a) r, Execute (mkTemplate b) r with
  | (_, Some err), _ => ("", Some err)
  | (_, None), (_, Some err) => ("", Some err)
  | (sa, None), (sb, None) => (sa +:+ sb, None)
  end.
Proof.
  unfold Execute. cbn [Nodes]. rewrite Execute_loop_app.
  destruct (Execute_loop a (mkBuilder "") r) as [sa [e|]]; [reflexivity|].
  rewrite Execute_loop_builder.
  now destruct (Execute_loop b (mkBuilder "") r) as [sb [e|]].
Qed.

Lemma Execute_loop_ext (r1 r2 : Replacer) (nodes : list Node) (out : Builder) :
  (forall v, In (NVar v) nodes -> Get r1 (Key v) = Get r2 (Key v)) ->
  Execute_loop nodes out r1 = Execute_loop nodes out r2.
Proof.
  revert out. induction nodes as [|n rest IH]; intros out Hagree; [reflexivity|].
  simpl.
  assert (Hn : WriteTo n out r1 = WriteTo n out r2).
  { destruct n as [txt|v]; [reflexivity|]. simpl. unfold VarNode_WriteTo.
    now rewrite (Hagree v (or_introl eq_refl)). }
  rewrite Hn. destruct (WriteTo n out r2) as [out' [e|]]; [reflexivity|].
  apply IH. intros v Hin. apply Hagree. now right.
Qed.

(** X10. Rendering asks the Replacer for the keys of the template's
    variable nodes and for nothing else: two Replacers that answer alike on
    those keys give the same result, string and error. *)
Theorem Execute_ext (t : Template) (r1 r2 : Replacer) :
  (forall v, In (NVar v) (Nodes t) -> Get r1 (Key v) = Get r2 (Key v)) ->
  Execute t r1 = Execute t r2.
Proof. apply Execute_loop_ext. Qed.

Lemma Execute_ext_witness :
  (forall v,
      In (NVar v) (Nodes greetingTemplate) ->
      Get helloReplacer (Key v) =
      Get (ReplacerFuncFromMap {[ "greeting" := "Hello"; "scope" := "auth" ]}) (Key v)) /\
  Execute greetingTemplate helloReplacer =
  Execute greetingTemplate
    (ReplacerFuncFromMap {[ "greeting" := "Hello"; "scope" := "auth" ]}).
Proof.
  assert (Hagree : forall v,
      In (NVar v) (Nodes greetingTemplate) ->
      Get helloReplacer (Key v) =
      Get (ReplacerFuncFromMap {[ "greeting" := "Hello"; "scope" := "auth" ]}) (Key v)).
  { intros v [E | [E | [E | []]]]; try discriminate E.
    injection E as <-. reflexivity. }
  split; [exact Hagree|].
  exact (Execute_ext greetingTemplate helloReplacer _ Hagree).
Defined.

(** ** [TrimSpace] returns a slice of its argument, and a trimmed one *)

Lemma length_rev (s : string) : String.length (rev s) = String.length s.
Proof.
  induction s as [|c s IH]; [reflexivity|].
  cbn [rev]. rewrite length_append, IH. simpl. lia.
Qed.

Lemma rev_append (a b : string) : rev (a +:+ b) = rev b +:+ rev a.
Proof.
  induction a as [|c a IH].
  - change ("" +:+ b) with b. cbn [rev]. now rewrite append_nil_r.
  - rewrite append_cons. cbn [rev]. now rewrite IH, append_assoc.
Qed.

Lemma rev_rev (s : string) : rev (rev s) = s.
Proof.
  induction s as [|c s IH]; [reflexivity|].
  cbn [rev]. rewrite rev_append, IH. reflexivity.
Qed.

Lemma drop_app_length (a b : string) : drop (String.length a) (a +:+ b) = b.
Proof. induction a as [|c a IH]; [reflexivity | exact IH]. Qed.

Lemma rev_drop_rev (k : nat) (s : string) :
  k <= String.length s -> rev (drop k (rev s)) = take (String.length s - k) s.
Proof.
  intros Hk. set (m := String.length s - k).
  assert (Hk' : k = String.length (rev (drop m s)))
    by (rewrite length_rev, length_drop; lia).
  rewrite <- (take_drop m s) at 1. rewrite rev_append.
  rewrite Hk' at 1. rewrite drop_app_length. apply rev_rev.
Qed.

Section Trimmer.

(** A function that drops leading bytes as long as a test tells it to. *)
Variable f : string -> string.
Variable test : string -> bool.
Hypothesis f_stop : forall s, test s = false -> f s = s.
Hypothesis f_step :
  forall s, test s = true ->
            exists k, 0 < k <= String.length s /\ f s = f (drop k s).

Lemma trimmer_drop (s : string) : exists k, k <= String.length s /\ f s = drop k s.
Proof.
  remember (String.length s) as n eqn:Hn. revert s Hn.
  induction n as [n IH] using lt_wf_ind. intros s ->.
  destruct (test s) eqn:Htest.
  - destruct (f_step s Htest) as (k & Hk & Hf).
    destruct (IH (String.length (drop k s)) ltac:(rewrite length_drop; lia)
                 (drop k s) eq_refl) as (j & Hj & Hdrop).
    exists (k + j). rewrite length_drop in Hj. split; [lia|].
    now rewrite Hf, Hdrop, drop_drop.
  - exists 0. split; [lia|]. now apply f_stop.
Qed.

Lemma trimmer_result_clean (s : string) : test (f s) = false.
Proof.
  remember (String.length s) as n eqn:Hn. revert s Hn.
  induction n as [n IH] using lt_wf_ind. intros s ->.
  destruct (test s) eqn:Htest.
  - destruct (f_step s Htest) as (k & Hk & Hf). rewrite Hf.
    apply (IH (String.length (drop k s))); [rewrite length_drop; lia | reflexivity].
  - now rewrite f_stop.
Qed.

Lemma trimmer_idempotent (s : string) : f (f s) = f s.
Proof. apply f_stop, trimmer_result_clean. Qed.

End Trimmer.

Lemma TrimLeftSpace_stop (s : string) : startsWithSpace s = false -> TrimLeftSpace s = s.
Proof.
  destruct s as [|c1 s1]; [reflexivity|]. cbn [startsWithSpace TrimLeftSpace].
  destruct (asciiSpace c1); [discriminate|]. cbn [orb].
  destruct s1 as [|c2 s2]; [reflexivity|].
  destruct (isSpace2 c1 c2); [discriminate|]. cbn [orb].
  destruct s2 as [|c3 s3]; [reflexivity|].
  destruct (isSpace3 c1 c2 c3); [discriminate | reflexivity].
Qed.

Lemma TrimLeftSpace_step (s : string) :
  startsWithSpace s = true ->
  exists k, 0 < k <= String.length s /\ TrimLeftSpace s = TrimLeftSpace (drop k s).
Proof.
  destruct s as [|c1 s1]; [discriminate|]. cbn [startsWithSpace TrimLeftSpace].
  destruct (asciiSpace c1).
  { intros _. exists 1. split; [simpl; lia | reflexivity]. }
  destruct s1 as [|c2 s2]; [discriminate|].
  destruct (isSpace2 c1 c2).
  { intros _. exists 2. split; [simpl; lia | reflexivity]. }
  destruct s2 as [|c3 s3]; [discriminate|].
  destruct (isSpace3 c1 c2 c3); [|discriminate].
  intros _. exists 3. split; [simpl; lia | reflexivity].
Qed.

Lemma trimSpaceRev_stop (s : string) : endsWithSpaceRev s = false -> trimSpaceRev s = s.
Proof.
  destruct s as [|c1 s1]; [reflexivity|]. cbn [endsWithSpaceRev trimSpaceRev].
  destruct (asciiSpace c1); [discriminate|]. cbn [orb].
  destruct s1 as [|c2 s2]; [reflexivity|].
  destruct (isSpace2 c2 c1); [discriminate|]. cbn [orb].
  destruct s2 as [|c3 s3]; [reflexivity|].
  destruct (isSpace3 c3 c2 c1); [discriminate | reflexivity].
Qed.

Lemma trimSpaceRev_step (s : string) :
  endsWithSpaceRev s = true ->
  exists k, 0 < k <= String.length s /\ trimSpaceRev s = trimSpaceRev (drop k s).
Proof.
  destruct s as [|c1 s1]; [discriminate|]. cbn [endsWithSpaceRev trimSpaceRev].
  destruct (asciiSpace c1).
  { intros _. exists 1. split; [simpl; lia | reflexivity]. }
  destruct s1 as [|c2 s2]; [discriminate|].
  destruct (isSpace2 c2 c1).
  { intros _. exists 2. split; [simpl; lia | reflexivity]. }
  destruct s2 as [|c3 s3]; [discriminate|].
  destruct (isSpace3 c3 c2 c1); [|discriminate].
  intros _. exists 3. split; [simpl; lia | reflexivity].
Qed.

Lemma TrimLeftSpace_drop (s : string) :
  exists k, k <= String.length s /\ TrimLeftSpace s = drop k s.
Proof. exact (trimmer_drop _ _ TrimLeftSpace_stop TrimLeftSpace_step s). Qed.

Lemma TrimRightSpace_take (s : string) : exists k, TrimRightSpace s = take k s.
Proof.
  unfold TrimRightSpace.
  destruct (trimmer_drop _ _ trimSpaceRev_stop trimSpaceRev_step (rev s)) as (k & Hk & ->).
  rewrite length_rev in Hk. exists (String.length s - k). now apply rev_drop_rev.
Qed.

Lemma TrimSpace_slice (s : string) : exists a b, TrimSpace s = take b (drop a s).
Proof.
  unfold TrimSpace.
  destruct (TrimLeftSpace_drop s) as (a & _ & ->).
  destruct (TrimRightSpace_take (drop a s)) as (b & ->). now exists a, b.
Qed.

Lemma TrimSpace_no_occurrence (s sep : string) :
  Index s sep = None -> Index (TrimSpace s) sep = None.
Proof.
  intros Hnone. destruct (TrimSpace_slice s) as (a & b & ->).
  now apply Index_None_take, Index_None_drop.
Qed.

Lemma startsWithSpace_take (k : nat) (s : string) :
  startsWithSpace (take k s) = true -> startsWithSpace s = true.
Proof.
  destruct s as [|c1 s1]; [now destruct k|].
  destruct k as [|k]; [simpl; discriminate|].
  cbn [take startsWithSpace]. destruct (asciiSpace c1); [reflexivity|]. cbn [orb].
  destruct s1 as [|c2 s2]; [now destruct k|].
  destruct k as [|k]; [simpl; discriminate|].
  cbn [take]. destruct (isSpace2 c1 c2); [reflexivity|]. cbn [orb].
  destruct s2 as [|c3 s3]; [now destruct k|].
  destruct k as [|k]; [simpl; discriminate|].
  cbn [take]. trivial.
Qed.

Lemma TrimSpace_idempotent (s : string) : TrimSpace (TrimSpace s) = TrimSpace s.
Proof.
  unfold TrimSpace.
  set (u := TrimLeftSpace s).
  assert (Hu : startsWithSpace u = false)
    by exact (trimmer_result_clean _ _ TrimLeftSpace_stop TrimLeftSpace_step s).
  destruct (TrimRightSpace_take u) as (k & Hk).
  assert (Hw : startsWithSpace (TrimRightSpace u) = false).
  { destruct (startsWithSpace (TrimRightSpace u)) eqn:E; [|reflexivity].
    rewrite Hk in E. apply startsWithSpace_take in E. congruence. }
  rewrite (TrimLeftSpace_stop _ Hw).
  unfold TrimRightSpace. rewrite rev_rev.
  now rewrite (trimmer_idempotent _ _ trimSpaceRev_stop trimSpaceRev_step).
Qed.

(** ** The fields of a parsed variable node *)

Lemma Index_nil_None (sep : string) : sep <> "" -> Index "" sep = None.
Proof. intros Hsep. rewrite Index_nil. destruct sep; [contradiction | reflexivity]. Qed.

(** No part that [Split] returns holds the separator. *)
Lemma genSplit_parts (sep : string) (n : nat) (s : string) :
  sep <> "" ->
  String.length s <= n ->
  Forall (fun part => Index part sep = None) (genSplit n s sep).
Proof.
  intros Hsep. revert s. induction n as [|n IH]; intros s Hn; cbn [genSplit].
  - destruct s; [|simpl in Hn; lia]. constructor; [now apply Index_nil_None | constructor].
  - destruct (Index s sep) as [m|] eqn:Hm.
    + constructor; [now apply Index_take_None|].
      apply IH. pose proof (Index_bound _ _ _ Hm).
      assert (0 < String.length sep) by (destruct sep; [contradiction | simpl; lia]).
      rewrite length_drop. lia.
    + constructor; [exact Hm | constructor].
Qed.

Lemma last_Forall {A} (P : A -> Prop) (l : list A) (d : A) :
  P d -> Forall P l -> P (List.last l d).
Proof.
  intros Hd Hall. induction Hall as [|x l Hx Hall IH]; [exact Hd|].
  rewrite last_cons_default. clear IH Hd. revert x Hx.
  induction Hall as [|y l Hy Hall IH]; intros x Hx; [exact Hx|].
  rewrite last_cons_default. now apply IH.
Qed.

Lemma filter_existsb_false {A} (f : A -> bool) (l : list A) :
  List.existsb f l = false -> List.filter f l = [].
Proof.
  induction l as [|x l IH]; [reflexivity|]. simpl.
  destruct (f x); [discriminate | exact IH].
Qed.

(** What [parseToken] returns for a token it accepts, the loop over the
    parts resolved. *)
Lemma parseToken_shape (token : string) (v : VarNode) :
  parseToken token = inl (NVar v) ->
  exists body,
    TrimSpace token = varPrefix +:+ body /\
    ((Index body choiceSep = None /\ v = mkVarNode (TrimSpace body) [] "" false) \/
     (exists idx parts,
        Index body choiceSep = Some idx /\
        parts = List.map TrimSpace (Split (drop (idx + 1) body) choiceDelim) /\
        v = mkVarNode (TrimSpace (take idx body))
              (List.filter (fun part => negb (isDefaultPart part)) parts)
              (List.last (List.map (drop 1) (List.filter isDefaultPart parts)) "")
              (List.existsb isDefaultPart parts))).
Proof.
  unfold parseToken.
  destruct (HasPrefix (TrimSpace token) varPrefix) eqn:Hsig; cbn [negb]; [|discriminate].
  intros Hp.
  exists (drop (String.length varPrefix) (TrimSpace token)).
  split; [now apply HasPrefix_split|].
  destruct (Index _ choiceSep) as [idx|] eqn:Hidx.
  - rewrite fold_left_parseToken_part in Hp. cbn [orb app] in Hp.
    injection Hp as <-. right. now eexists _, _.
  - injection Hp as <-. now left.
Qed.

(** X11. The delimiters of the marker grammar never end up inside a field.
    In the node [parseToken] returns, the key holds no [":"], no allowed
    value holds a ["|"] or starts with ["@"], the default holds no ["|"],
    and a default that is not present is empty. *)
Theorem parseToken_no_delimiters (token : string) (v : VarNode) :
  parseToken token = inl (NVar v) ->
  Index (Key v) choiceSep = None /\
  Forall (fun choice => Index choice choiceDelim = None /\
                        HasPrefix choice defPrefix = false) (Choices v) /\
  Index (Default v) choiceDelim = None /\
  (HasDef v = false -> Default v = "").
Proof.
  intros Hparse.
  destruct (parseToken_shape _ _ Hparse)
    as (body & _ & [[Hnone ->] | (idx & parts & Hidx & Hparts & ->)]);
    cbn [Key Choices Default HasDef].
  - repeat split; [now apply TrimSpace_no_occurrence | constructor].
  - assert (Hall : Forall (fun part => Index part choiceDelim = None) parts).
    { subst parts. apply List.Forall_forall. intros part Hin.
      apply List.in_map_iff in Hin as (raw & <- & Hraw).
      apply TrimSpace_no_occurrence.
      pose proof (genSplit_parts choiceDelim (String.length (drop (idx + 1) body))
                    (drop (idx + 1) body) ltac:(discriminate) ltac:(lia)) as Hsplit.
      rewrite List.Forall_forall in Hsplit. now apply Hsplit. }
    rewrite List.Forall_forall in Hall.
    split; [|split; [|split]].
    + apply TrimSpace_no_occurrence. apply Index_take_None; [discriminate | exact Hidx].
    + apply List.Forall_forall. intros choice Hin.
      apply List.filter_In in Hin as [Hin Hnot]. split; [now apply Hall|].
      unfold isDefaultPart in Hnot. now destruct (HasPrefix choice defPrefix).
    + apply last_Forall; [reflexivity|].
      apply List.Forall_forall. intros d Hin.
      apply List.in_map_iff in Hin as (part & <- & Hpart).
      apply List.filter_In in Hpart as [Hpart _].
      now apply Index_None_drop, Hall.
    + intros Hno. now rewrite (filter_existsb_false _ _ Hno).
Qed.

Lemma parseToken_no_delimiters_witness :
  parseToken " .k : x | @d | y |x|@e " =
    inl (NVar (mkVarNode "k" ["x"; "y"; "x"] "e" true)) /\
  Index "k" choiceSep = None /\
  Forall (fun choice => Index choice choiceDelim = None /\
                        HasPrefix choice defPrefix = false) ["x"; "y"; "x"] /\
  Index "e" choiceDelim = None /\
  (true = false -> "e" = "").
Proof.
  assert (Hparse : parseToken " .k : x | @d | y |x|@e " =
                   inl (NVar (mkVarNode "k" ["x"; "y"; "x"] "e" true))) by reflexivity.
  split; [exact Hparse|].
  exact (parseToken_no_delimiters _ _ Hparse).
Defined.

(** X12. Keys and allowed values are trimmed. In the node [parseToken]
    returns, the key and every allowed value have no white space left at
    either end: trimming them again changes nothing. *)
Theorem parseToken_trimmed (token : string) (v : VarNode) :
  parseToken token = inl (NVar v) ->
  TrimSpace (Key v) = Key v /\
  Forall (fun choice => TrimSpace choice = choice) (Choices v).
Proof.
  intros Hparse.
  destruct (parseToken_shape _ _ Hparse)
    as (body & _ & [[Hnone ->] | (idx & parts & Hidx & Hparts & ->)]);
    cbn [Key Choices Default HasDef].
  - split; [apply TrimSpace_idempotent | constructor].
  - split; [apply TrimSpace_idempotent|].
    apply List.Forall_forall. intros choice Hin.
    apply List.filter_In in Hin as [Hin _]. subst parts.
    apply List.in_map_iff in Hin as (raw & <- & _). apply TrimSpace_idempotent.
Qed.

Lemma parseToken_trimmed_witness :
  parseToken " .k : x | @d | y |x|@e " =
    inl (NVar (mkVarNode "k" ["x"; "y"; "x"] "e" true)) /\
  TrimSpace "k" = "k" /\
  Forall (fun choice => TrimSpace choice = choice) ["x"; "y"; "x"].
Proof.
  assert (Hparse : parseToken " .k : x | @d | y |x|@e " =
                   inl (NVar (mkVarNode "k" ["x"; "y"; "x"] "e" true))) by reflexivity.
  split; [exact Hparse|].
  exact (parseToken_trimmed _ _ Hparse).
Defined.

(** ** The command line *)

Lemma parseReplacements_loop_step (rep : string) (rest : list string)
      (m0 : gmap string string) :
  Cli.parseReplacements_loop (rep :: rest) m0 =
  match Index rep "=" with
  | None => (None, Some (Cli.InvalidReplacementFormat rep))
  | Some _ =>
      if String.eqb (Cli.flagKey rep) ""
      then (None, Some (Cli.EmptyReplacementKey rep))
      else Cli.parseReplacements_loop rest (<[Cli.flagKey rep := Cli.flagValue rep]> m0)
  end.
Proof.
  cbn [Cli.parseReplacements_loop Cli.SplitN genSplit].
  unfold Cli.flagKey, Cli.flagValue.
  destruct (Index rep "=") as [i|]; reflexivity.
Qed.

Lemma wellFormedFlag_dec (rep : string) :
  {Cli.wellFormedFlag rep} + {~ Cli.wellFormedFlag rep}.
Proof.
  unfold Cli.wellFormedFlag.
  destruct (Index rep "=") as [i|].
  - destruct (String.eqb_spec (Cli.flagKey rep) "") as [E|E].
    + right. intros [_ H]. contradiction.
    + left. split; [discriminate | exact E].
  - right. intros [H _]. contradiction.
Qed.

Lemma parseReplacements_loop_cases (flags : list string) (m0 : gmap string string) :
  (Forall Cli.wellFormedFlag flags /\
   exists m, Cli.parseReplacements_loop flags m0 = (Some m, None)) \/
  (exists pre rep post,
      flags = pre ++ rep :: post /\
      Forall Cli.wellFormedFlag pre /\
      ((Index rep "=" = None /\
        Cli.parseReplacements_loop flags m0 =
          (None, Some (Cli.InvalidReplacementFormat rep))) \/
       (Index rep "=" <> None /\ Cli.flagKey rep = "" /\
        Cli.parseReplacements_loop flags m0 =
          (None, Some (Cli.EmptyReplacementKey rep))))).
Proof.
  revert m0. induction flags as [|rep rest IH]; intros m0.
  - left. split; [constructor | now eexists].
  - rewrite parseReplacements_loop_step.
    destruct (Index rep "=") as [i|] eqn:Hi.
    + destruct (String.eqb_spec (Cli.flagKey rep) "") as [E|E].
      * right. exists [], rep, rest. split; [reflexivity|]. split; [constructor|].
        right. rewrite Hi. repeat split; [discriminate | exact E].
      * assert (Hwf : Cli.wellFormedFlag rep).
        { split; [rewrite Hi; discriminate | exact E]. }
        destruct (IH (<[Cli.flagKey rep := Cli.flagValue rep]> m0))
          as [[Hall Hok] | (pre & bad & post & -> & Hpre & Hbad)].
        -- left. split; [now constructor | exact Hok].
        -- right. exists (rep :: pre), bad, post.
           split; [reflexivity|]. split; [now constructor|].
           destruct Hbad as [[Hb Hrun] | (Hb & Hk & Hrun)]; [left | right];
             repeat split; assumption.
    + right. exists [], rep, rest. split; [reflexivity|]. split; [constructor|].
      left. now rewrite Hi.
Qed.

(** X13. [parseReplacements] accepts a list of flags exactly when every
    flag has an ["="] and a key, the trimmed text before the first ["="],
    that is not empty. Otherwise it returns no map, and the error names the
    first flag that fails: [InvalidReplacementFormat] when it has no
    ["="], [EmptyReplacementKey] when its key is empty. *)
Theorem parseReplacements_succeeds_iff (flags : list string) :
  ((exists m, Cli.parseReplacements flags = (Some m, None)) <->
   Forall Cli.wellFormedFlag flags) /\
  (forall res err,
      Cli.parseReplacements flags = (res, Some err) ->
      res = None /\
      exists pre rep post,
        flags = pre ++ rep :: post /\
        Forall Cli.wellFormedFlag pre /\
        ((Index rep "=" = None /\ err = Cli.InvalidReplacementFormat rep) \/
         (Index rep "=" <> None /\ Cli.flagKey rep = "" /\
          err = Cli.EmptyReplacementKey rep))).
Proof.
  unfold Cli.parseReplacements.
  destruct (parseReplacements_loop_cases flags ∅)
    as [[Hall [m Hok]] | (pre & rep & post & Hsplit & Hpre & Hbad)].
  - rewrite Hok. split; [split; [intros _; exact Hall | intros _; now exists m]|].
    intros res err [=].
  - assert (Hnot : ~ Cli.wellFormedFlag rep).
    { intros [H1 H2]. destruct Hbad as [[Hb _] | (_ & Hk & _)]; contradiction. }
    split; [split|].
    + intros [m Hm]. destruct Hbad as [[_ Hrun] | (_ & _ & Hrun)]; congruence.
    + intros Hall. exfalso. apply Hnot. rewrite Hsplit in Hall.
      apply Forall_app in Hall as [_ Hall]. now inversion Hall.
    + intros res err Hrun. destruct Hbad as [[Hb Hrun'] | (Hb & Hk & Hrun')];
        rewrite Hrun' in Hrun; injection Hrun as <- <-;
        (split; [reflexivity|]); exists pre, rep, post;
        (split; [exact Hsplit|]); (split; [exact Hpre|]); [left | right]; auto.
Qed.

Lemma parseReplacements_succeeds_iff_witness :
  Forall Cli.wellFormedFlag ["type=feat"; " scope = auth "] /\
  exists m, Cli.parseReplacements ["type=feat"; " scope = auth "] = (Some m, None).
Proof.
  assert (Hall : Forall Cli.wellFormedFlag ["type=feat"; " scope = auth "]).
  { repeat constructor; vm_compute; discriminate. }
  split; [exact Hall|].
  exact (proj2 (proj1 (parseReplacements_succeeds_iff ["type=feat"; " scope = auth "])) Hall).
Defined.

Lemma find_app {A} (f : A -> bool) (l1 l2 : list A) :
  List.find f (l1 ++ l2) =
  match List.find f l1 with
  | Some x => Some x
  | None => List.find f l2
  end.
Proof.
  induction l1 as [|x l1 IH]; [reflexivity|]. simpl. now destruct (f x).
Qed.

Lemma parseReplacements_loop_lookup (flags : list string) (m0 m : gmap string string)
      (key : string) :
  Cli.parseReplacements_loop flags m0 = (Some m, None) ->
  m !! key =
  match List.find (fun rep => String.eqb (Cli.flagKey rep) key) (List.rev flags) with
  | Some rep => Some (Cli.flagValue rep)
  | None => m0 !! key
  end.
Proof.
  revert m0. induction flags as [|rep rest IH]; intros m0.
  - simpl. now intros [= <-].
  - rewrite parseReplacements_loop_step.
    destruct (Index rep "=") as [i|]; [|discriminate].
    destruct (String.eqb (Cli.flagKey rep) ""); [discriminate|].
    intros Hrun. rewrite (IH _ Hrun). cbn [List.rev]. rewrite find_app.
    destruct (List.find _ (List.rev rest)); [reflexivity|].
    cbn [List.find]. rewrite lookup_insert.
    destruct (String.eqb_spec (Cli.flagKey rep) key) as [E|E];
      destruct (decide (Cli.flagKey rep = key)); congruence.
Qed.

(** X14. The map [parseReplacements] returns, read through
    [ReplacerFuncFromMap]: a key is found exactly when some flag has it as
    its key, its value is the trimmed text after the first ["="] of the
    last such flag (later flags override earlier ones, and a value may hold
    further ["="]), and the empty key is never found. *)
Theorem parseReplacements_lookup (flags : list string) (m : gmap string string) :
  Cli.parseReplacements flags = (Some m, None) ->
  (forall key,
      Get (ReplacerFuncFromMap m) key =
      match List.find (fun rep => String.eqb (Cli.flagKey rep) key) (List.rev flags) with
      | Some rep => (Cli.flagValue rep, true)
      | None => ("", false)
      end) /\
  Get (ReplacerFuncFromMap m) "" = ("", false).
Proof.
  intros Hrun.
  assert (Hlook : forall key,
      Get (ReplacerFuncFromMap m) key =
      match List.find (fun rep => String.eqb (Cli.flagKey rep) key) (List.rev flags) with
      | Some rep => (Cli.flagValue rep, true)
      | None => ("", false)
      end).
  { intros key. cbn [Get ReplacerFuncFromMap].
    rewrite (parseReplacements_loop_lookup flags ∅ m key Hrun).
    destruct (List.find _ (List.rev flags)); [reflexivity|]. now rewrite lookup_empty. }
  split; [exact Hlook|].
  rewrite Hlook.
  destruct (List.find _ (List.rev flags)) as [rep|] eqn:Hfind; [|reflexivity].
  exfalso. apply List.find_some in Hfind as [Hin Hkey].
  apply String.eqb_eq in Hkey. apply List.in_rev in Hin.
  assert (Hall : Forall Cli.wellFormedFlag flags).
  { unfold Cli.parseReplacements in Hrun.
    destruct (parseReplacements_loop_cases flags ∅)
      as [[Hall _] | (pre & bad & post & _ & _ & [[_ Hbad] | (_ & _ & Hbad)])];
      [exact Hall | congruence | congruence]. }
  rewrite List.Forall_forall in Hall. now destruct (Hall rep Hin).
Qed.

Lemma parseReplacements_lookup_witness :
  Cli.parseReplacements ["type=fix"; "scope=a=b"; " type = feat "] =
    (Some {[ "type" := "feat"; "scope" := "a=b" ]}, None) /\
  Get (ReplacerFuncFromMap {[ "type" := "feat"; "scope" := "a=b" ]}) "type" =
    ("feat", true).
Proof.
  assert (Hrun : Cli.parseReplacements ["type=fix"; "scope=a=b"; " type = feat "] =
                 (Some {[ "type" := "feat"; "scope" := "a=b" ]}, None)).
  { vm_compute. reflexivity. }
  split; [exact Hrun|].
  exact (proj1 (parseReplacements_lookup _ _ Hrun) "type").
Defined.

(** X15. The command line prints what [Execute] returns. For a template
    file that is read to its end, [processTemplate] either parses it and
    returns the string and the error of [Execute] on the parsed template
    and the map, the error wrapped as an execution failure, or returns the
    parser's [ErrInvalidTokenSyntax] wrapped as a parse failure; with every
    error the string is empty. The parser never hands over a nil template
    without an error, so [ExecuteTo] is never called on one. *)
Theorem processTemplate_is_Execute (file : Cli.Reader) (m : gmap string string) :
  Cli.readError file = None ->
  (exists t,
      ParseString (Cli.readBytes file) = (Some t, None) /\
      Cli.processTemplate (inl file) m =
        match Execute t (ReplacerFuncFromMap m) with
        | (_, Some err) => ("", Some (Cli.FailedToExecuteTemplate err))
        | (message, None) => (message, None)
        end) \/
  (exists token,
      ParseString (Cli.readBytes file) = (None, Some (ErrInvalidTokenSyntax token)) /\
      Cli.processTemplate (inl file) m =
        ("", Some (Cli.FailedToParseTemplate
                     (Cli.SyntaxFailed (ErrInvalidTokenSyntax token))))).
Proof.
  intros Hread. unfold Cli.processTemplate, Cli.Parse. rewrite Hread.
  destruct (ParseString_result (Cli.readBytes file)) as [[t Ht] | [token Ht]];
    rewrite Ht; [left; exists t | right; exists token]; (split; [reflexivity|]);
    [|reflexivity].
  unfold Execute, ExecuteTo.
  destruct (Execute_ExecuteTo_loops (ReplacerFuncFromMap m) (Nodes t)
              (mkBuilder "") (mkBuilder "")) as [Herr Hout].
  destruct (Execute_loop (Nodes t) (mkBuilder "") (ReplacerFuncFromMap m))
    as [message [e|]];
    destruct (ExecuteTo_loop (Nodes t) (mkBuilder "") (ReplacerFuncFromMap m))
    as [output [e'|]]; simpl in *; try congruence.
  destruct (Hout eq_refl) as (added & Ha & Hb). cbn in Hb. congruence.
Qed.

Lemma processTemplate_is_Execute_witness :
  Cli.processTemplate (inl (Cli.mkReader "fix: {{ .what: @typo }}" None))
                      (<["what" := "build"]> ∅) = ("fix: build", None).
Proof.
  destruct (processTemplate_is_Execute
              (Cli.mkReader "fix: {{ .what: @typo }}" None)
              (<["what" := "build"]> ∅) eq_refl)
    as [(t & Hparse & Hrun) | (token & Hparse & _)].
  - rewrite Hrun.
    assert (Ht : t = mkTemplate [NText (mkTextNode "fix: ");
                                 NVar (mkVarNode "what" [] "typo" true)]).
    { vm_compute in Hparse. now inversion Hparse. }
    subst t. reflexivity.
  - vm_compute in Hparse. discriminate Hparse.
Defined.

(** ** The legacy regex engine beside the node engine *)

Lemma parseParams_loop_spec (parts allowed : list string) (def : string) :
  Legacy.parseParams_loop parts allowed def =
  (allowed ++
     List.filter (fun part => negb (String.eqb part ""))
       (List.filter (fun part => negb (isDefaultPart part)) (List.map TrimSpace parts)),
   List.last (List.map (drop 1) (List.filter isDefaultPart (List.map TrimSpace parts))) def).
Proof.
  revert allowed def. induction parts as [|p parts IH]; intros allowed def.
  - simpl. now rewrite app_nil_r.
  - cbn [Legacy.parseParams_loop List.map List.filter].
    destruct (String.eqb_spec (TrimSpace p) "") as [E|E].
    + rewrite E. cbn [isDefaultPart HasPrefix String.prefix negb List.filter String.eqb].
      apply IH.
    + change (HasPrefix (TrimSpace p) "@") with (isDefaultPart (TrimSpace p)).
      destruct (isDefaultPart (TrimSpace p)) eqn:Hd; cbn [negb List.filter List.map].
      * rewrite IH. now rewrite last_cons_default.
      * rewrite IH. apply String.eqb_neq in E. rewrite E. cbn [negb].
        now rewrite <- app_assoc.
Qed.

(** X16. The two engines read the parameters of a marker alike. From the
    same text after the [":"], the regex engine's [parseParams] returns the
    default the node engine's loop over the parts computes, and the same
    allowed values in the same order, except that it leaves the empty ones
    out. *)
Theorem Legacy_parseParams_agrees (params : string) :
  Legacy.parseParams params =
  (List.filter (fun choice => negb (String.eqb choice ""))
     (snd (fold_left parseToken_part (Split params choiceDelim) ("", false, []))),
   fst (fst (fold_left parseToken_part (Split params choiceDelim) ("", false, [])))).
Proof.
  unfold Legacy.parseParams. rewrite parseParams_loop_spec, fold_left_parseToken_part.
  reflexivity.
Qed.

Lemma Legacy_replaceMatch_found (replacements : gmap string string)
      (key params value : string) :
  replacements !! key = Some value ->
  Legacy.replaceMatch replacements key params =
  if (0 <? length (fst (Legacy.parseParams params))) &&
     negb (Legacy.contains (fst (Legacy.parseParams params)) value)
  then Legacy.PanicInvalidValue value key (fst (Legacy.parseParams params))
  else Legacy.Replaced value.
Proof.
  unfold Legacy.replaceMatch. intros ->.
  now destruct (Legacy.parseParams params) as [allowed def].
Qed.

(** X17. Where the regex engine departs from the node engine. For a key
    that the map does not hold: an empty default counts as no default (the
    function panics with the missing key), and a non-empty default is
    checked against the allowed values like a found value (it is returned
    when there are no allowed values or it is one of them, and the function
    panics with an invalid value otherwise). *)
Theorem Legacy_default_is_validated (replacements : gmap string string)
        (key params : string) :
  replacements !! key = None ->
  (snd (Legacy.parseParams params) = "" ->
   Legacy.replaceMatch replacements key params = Legacy.PanicMissingKey key) /\
  (snd (Legacy.parseParams params) <> "" ->
   (fst (Legacy.parseParams params) = [] \/
    In (snd (Legacy.parseParams params)) (fst (Legacy.parseParams params)) ->
    Legacy.replaceMatch replacements key params =
      Legacy.Replaced (snd (Legacy.parseParams params))) /\
   (fst (Legacy.parseParams params) <> [] ->
    ~ In (snd (Legacy.parseParams params)) (fst (Legacy.parseParams params)) ->
    Legacy.replaceMatch replacements key params =
      Legacy.PanicInvalidValue (snd (Legacy.parseParams params)) key
        (fst (Legacy.parseParams params)))).
Proof.
  unfold Legacy.replaceMatch. intros ->.
  destruct (Legacy.parseParams params) as [allowed def]. cbn [fst snd].
  split; [intros ->; reflexivity|].
  intros Hdef. apply String.eqb_neq in Hdef. rewrite Hdef.
  split.
  - intros [-> | Hin]; [reflexivity|].
    apply Legacy_contains_In in Hin. rewrite Hin. now rewrite andb_false_r.
  - intros Hne Hnin. destruct (Legacy.contains allowed def) eqn:Hc.
    + apply Legacy_contains_In in Hc. contradiction.
    + destruct allowed; [contradiction | reflexivity].
Qed.

Lemma Legacy_default_is_validated_witness :
  (∅ : gmap string string) !! "greeting" = None /\
  Legacy.parseParams "Hi|Hello|@Hey" = (["Hi"; "Hello"], "Hey") /\
  Legacy.replaceMatch ∅ "greeting" "Hi|Hello|@Hey" =
    Legacy.PanicInvalidValue "Hey" "greeting" ["Hi"; "Hello"] /\
  VarNode_WriteTo greetingNode (mkBuilder "") emptyReplacer = (mkBuilder "Hey", None).
Proof.
  assert (Hnone : (∅ : gmap string string) !! "greeting" = None) by reflexivity.
  split; [exact Hnone|]. split; [reflexivity|]. split; [|reflexivity].
  refine (proj2 (proj2 (Legacy_default_is_validated ∅ "greeting" "Hi|Hello|@Hey" Hnone)
                   _) _ _).
  - discriminate.
  - discriminate.
  - simpl. intros [E|[E|[]]]; discriminate E.
Defined.

(** ** The git wrapper *)

(** [ValidateGitState] accepts exactly the state in which the four
    commands all run without error, the staged diff lists something, the
    unstaged diff lists nothing and the branch is not ["HEAD"]. *)
Lemma ValidateGitState_ok_iff (git : Git.Exec) :
  Git.ValidateGitState git = None <->
  snd (git ["rev-parse"; "--is-inside-work-tree"]) = None /\
  (exists staged,
      git ["diff"; "--cached"; "--name-only"] = (staged, None) /\
      TrimSpace staged <> "") /\
  (exists unstaged,
      git ["diff"; "--name-only"] = (unstaged, None) /\ TrimSpace unstaged = "") /\
  (exists branch,
      git ["rev-parse"; "--abbrev-ref"; "HEAD"] = (branch, None) /\
      TrimSpace branch <> "HEAD").
Proof.
  unfold Git.ValidateGitState, Git.IsGitRepository, Git.HasStagedChanges,
    Git.HasUnstagedChanges, Git.GetCurrentBranch, Git.runGitCommand.
  destruct (git ["rev-parse"; "--is-inside-work-tree"]) as [o0 [e0|]]; cbn [snd].
  { split; [discriminate | intros [H _]; discriminate]. }
  destruct (git ["diff"; "--cached"; "--name-only"]) as [o1 [e1|]].
  { split; [discriminate | intros (_ & (x & H & _) & _); discriminate]. }
  destruct (String.eqb_spec (TrimSpace o1) "") as [E1|E1]; cbn [negb].
  { split; [discriminate | intros (_ & (x & H & Hx) & _)].
    injection H as <-. contradiction. }
  destruct (git ["diff"; "--name-only"]) as [o2 [e2|]].
  { split; [discriminate | intros (_ & _ & (x & H & _) & _); discriminate]. }
  destruct (String.eqb_spec (TrimSpace o2) "") as [E2|E2]; cbn [negb].
  2:{ split; [discriminate | intros (_ & _ & (x & H & Hx) & _)].
      injection H as <-. contradiction. }
  destruct (git ["rev-parse"; "--abbrev-ref"; "HEAD"]) as [o3 [e3|]].
  { split; [discriminate | intros (_ & _ & _ & (x & H & _)); discriminate]. }
  destruct (String.eqb_spec (TrimSpace o3) "HEAD") as [E3|E3].
  { split; [discriminate | intros (_ & _ & _ & (x & H & Hx))].
    injection H as <-. contradiction. }
  split; [intros _ | reflexivity].
  split; [reflexivity|]. split; [now exists o1|]. split; [now exists o2 | now exists o3].
Qed.

(** X18. [Commit] commits only a validated state. It returns no error
    exactly when the four queries all run without error, the staged diff
    lists something, the unstaged diff lists nothing (output that is only
    white space lists nothing), the branch is not ["HEAD"], and the commit
    command itself runs without error; when the validation fails its error
    is returned, whatever the commit command would do. *)
Theorem Commit_ok_iff (git : Git.Exec) (message : string) :
  (Git.Commit git message = None <->
   snd (git ["rev-parse"; "--is-inside-work-tree"]) = None /\
   (exists staged,
       git ["diff"; "--cached"; "--name-only"] = (staged, None) /\
       TrimSpace staged <> "") /\
   (exists unstaged,
       git ["diff"; "--name-only"] = (unstaged, None) /\ TrimSpace unstaged = "") /\
   (exists branch,
       git ["rev-parse"; "--abbrev-ref"; "HEAD"] = (branch, None) /\
       TrimSpace branch <> "HEAD") /\
   snd (git ["commit"; "-m"; message]) = None) /\
  (forall err, Git.ValidateGitState git = Some err -> Git.Commit git message = Some err).
Proof.
  pose proof (ValidateGitState_ok_iff git) as Hvalid.
  unfold Git.Commit. destruct (Git.ValidateGitState git) as [e|].
  - split; [|now intros err [= <-]].
    split; [discriminate|]. intros (H0 & H1 & H2 & H3 & _).
    assert (Some e = None) by (apply Hvalid; auto). discriminate.
  - split; [|discriminate].
    destruct (proj1 Hvalid eq_refl) as (H0 & H1 & H2 & H3).
    destruct (git ["commit"; "-m"; message]) as [out [err|]]; cbn [snd].
    + split; [discriminate | intros (_ & _ & _ & _ & H); discriminate].
    + split; auto 6.
Qed.

(** ** The interactive form *)

Lemma weave_app (texts views ts vs : list string) :
  length texts = length views ->
  weave (texts ++ ts) (views ++ vs) = weave texts views +:+ weave ts vs.
Proof.
  revert views. induction texts as [|t texts IH]; intros [|v views] Hlen;
    try discriminate; [reflexivity|].
  cbn [app weave]. rewrite IH by (simpl in Hlen; lia). now rewrite !append_assoc.
Qed.

Lemma weave_same_length (texts views : list string) :
  length texts = length views ->
  forall t, weave (texts ++ [t]) views = weave texts views +:+ t.
Proof.
  intros Hlen t. rewrite <- (app_nil_r views) at 1.
  rewrite weave_app by assumption. cbn [weave]. now rewrite append_nil_r.
Qed.

Section FormFacts.

Variable SetValue : string -> string.
Variable View : Bubble.textinput -> string.

Lemma buildText_loop_weave (i : nat) (b : string) (texts : list string)
      (inputs : list Bubble.textinput) :
  Bubble.buildText_loop View i b texts inputs =
  b +:+ weave texts (List.map View (List.skipn i inputs)).
Proof.
  revert i b. induction texts as [|t texts IH]; intros i b.
  - cbn. now rewrite append_nil_r.
  - cbn [Bubble.buildText_loop]. rewrite IH.
    destruct (nth_error inputs i) as [input|] eqn:Hnth.
    + assert (Hskip : List.skipn i inputs = input :: List.skipn (S i) inputs).
      { clear -Hnth. revert inputs Hnth. induction i as [|i IHi]; intros [|x l] Hnth;
          try discriminate; [now injection Hnth as -> | now apply IHi]. }
      rewrite Hskip. cbn [List.map weave]. now rewrite !append_assoc.
    + apply List.nth_error_None in Hnth.
      rewrite (List.skipn_all2 inputs (n := i)) by exact Hnth.
      rewrite (List.skipn_all2 inputs (n := S i)) by lia.
      cbn [List.map weave]. now rewrite append_assoc.
Qed.

Lemma initModel_loop_spec (nodes : list Node) (text : string) (texts : list string)
      (inputs : list Bubble.textinput) :
  length texts = length inputs ->
  length (fst (Bubble.initModel_loop SetValue nodes text texts inputs)) =
    length (snd (Bubble.initModel_loop SetValue nodes text texts inputs)) + 1 /\
  snd (Bubble.initModel_loop SetValue nodes text texts inputs) =
    inputs ++ List.map (Bubble.newInput SetValue) (varNodes nodes) /\
  weave (fst (Bubble.initModel_loop SetValue nodes text texts inputs))
        (List.map View (snd (Bubble.initModel_loop SetValue nodes text texts inputs))) =
    weave texts (List.map View inputs) +:+ text +:+ Bubble.preview SetValue View nodes.
Proof.
  revert text texts inputs. induction nodes as [|[t|v] nodes IH];
    intros text texts inputs Hlen.
  - cbn [Bubble.initModel_loop fst snd varNodes List.map].
    rewrite length_app, app_nil_r. cbn [length]. split; [lia|]. split; [reflexivity|].
    rewrite weave_same_length by (now rewrite List.length_map).
    unfold Bubble.preview. cbn. now rewrite append_nil_r.
  - cbn [Bubble.initModel_loop varNodes].
    destruct (IH (text +:+ Text t) texts inputs Hlen) as (H1 & H2 & H3).
    split; [exact H1|]. split; [exact H2|]. rewrite H3.
    unfold Bubble.preview. cbn [List.map]. rewrite concat_cons.
    now rewrite !append_assoc.
  - cbn [Bubble.initModel_loop varNodes List.map].
    destruct (IH "" (texts ++ [text]) (inputs ++ [Bubble.newInput SetValue v])
                 ltac:(rewrite !length_app; simpl; lia)) as (H1 & H2 & H3).
    split; [exact H1|]. split; [now rewrite H2, <- app_assoc|]. rewrite H3.
    rewrite List.map_app. cbn [List.map].
    rewrite weave_app by (now rewrite List.length_map).
    unfold Bubble.preview. cbn [List.map weave]. rewrite concat_cons.
    change ("" +:+ ?x) with x. now rewrite append_nil_r, !append_assoc.
Qed.

(** X19. The form shows the whole template. [initModel] makes one input
    per variable node, in order, with the node's key as placeholder, and
    one static text more than inputs; so the guard of [buildText] leaves
    out no input, and the text it builds is the template's literals with
    the view of its input in place of every variable node. *)
Theorem initModel_buildText (tmpl : Template) :
  length (fst (Bubble.initModel SetValue tmpl)) =
    length (snd (Bubble.initModel SetValue tmpl)) + 1 /\
  List.map Bubble.Placeholder (snd (Bubble.initModel SetValue tmpl)) =
    List.map Key (varNodes (Nodes tmpl)) /\
  Bubble.buildText View (fst (Bubble.initModel SetValue tmpl))
                   (snd (Bubble.initModel SetValue tmpl)) =
    Bubble.preview SetValue View (Nodes tmpl).
Proof.
  unfold Bubble.initModel, Bubble.buildText.
  destruct (initModel_loop_spec (Nodes tmpl) "" [] [] eq_refl) as (H1 & H2 & H3).
  split; [exact H1|]. split.
  - rewrite H2. cbn [app]. rewrite List.map_map. apply List.map_ext.
    intros v. unfold Bubble.newInput. now destruct (negb (String.eqb (Default v) "")).
  - rewrite buildText_loop_weave, List.skipn_O, H3. reflexivity.
Qed.

End FormFacts.

Lemma Update_Enter_lookup_from (inputs : list Bubble.textinput)
      (m0 : gmap string string) (key : string) :
  Bubble.Update_Enter inputs m0 !! key =
  match List.find (fun input => String.eqb (Bubble.Placeholder input) key &&
                                negb (String.eqb (Bubble.Value input) ""))
                  (List.rev inputs) with
  | Some input => Some (Bubble.Value input)
  | None => m0 !! key
  end.
Proof.
  unfold Bubble.Update_Enter. revert m0.
  induction inputs as [|input inputs IH]; intros m0; [reflexivity|].
  cbn [fold_left List.rev]. rewrite IH, find_app.
  destruct (List.find _ (List.rev inputs)); [reflexivity|].
  cbn [List.find].
  destruct (String.eqb (Bubble.Value input) ""); cbn [negb].
  - now rewrite andb_false_r.
  - rewrite andb_true_r, lookup_insert.
    destruct (String.eqb_spec (Bubble.Placeholder input) key) as [E|E];
      destruct (decide (Bubble.Placeholder input = key)); congruence.
Qed.

(** X20. What Enter stores, read as the renderer will read it. With the
    map empty before, as the bubble command starts it, a key is found
    afterwards exactly when some input with that placeholder holds a
    value, and the value found is that of the last such input; an input
    left empty stores nothing, not even an empty value. *)
Theorem Update_Enter_lookup (inputs : list Bubble.textinput) (key : string) :
  Get (ReplacerFuncFromMap (Bubble.Update_Enter inputs ∅)) key =
  match List.find (fun input => String.eqb (Bubble.Placeholder input) key &&
                                negb (String.eqb (Bubble.Value input) ""))
                  (List.rev inputs) with
  | Some input => (Bubble.Value input, true)
  | None => ("", false)
  end.
Proof.
  cbn [Get ReplacerFuncFromMap]. rewrite Update_Enter_lookup_from.
  destruct (List.find _ (List.rev inputs)); [reflexivity|]. now rewrite lookup_empty.
Qed.

(** ** Rendering with nothing to replace *)

Lemma defaults_emit (r : Replacer) (nodes : list Node) :
  (forall v, In (NVar v) nodes -> snd (Get r (Key v)) = false) ->
  allHaveDefaults nodes ->
  Forall2 (fun n s => NodeOutcome r n (Emit s)) nodes
    (List.map (fun n => match n with
                        | NText t => Text t
                        | NVar v => Default v
                        end) nodes).
Proof.
  intros Hmiss Hall. induction Hall as [|n nodes Hn _ IH]; [constructor|].
  cbn [List.map]. constructor.
  - destruct n as [t|v]; [constructor|]. constructor.
    pose proof (Hmiss v (or_introl eq_refl)) as Hv.
    destruct (Get r (Key v)) as [zero found] eqn:Hget. simpl in Hv. subst found.
    now apply (Resolve_default v r zero).
  - apply IH. intros v Hin. apply Hmiss. now right.
Qed.

(** X21. Rendering when the Replacer finds none of the template's keys, as
    with a command line that has no [--replace] flag. If every variable
    node has a default, the result is the literals and the defaults in
    order, whatever the allowed values are; otherwise it is
    [ErrNoReplacement] for the key of the first variable node without a
    default. *)
Theorem Execute_nothing_found (t : Template) (r : Replacer) :
  (forall v, In (NVar v) (Nodes t) -> snd (Get r (Key v)) = false) ->
  (allHaveDefaults (Nodes t) -> Execute t r = (renderDefaults (Nodes t), None)) /\
  (forall pre v post,
      Nodes t = pre ++ NVar v :: post ->
      allHaveDefaults pre ->
      HasDef v = false ->
      Execute t r = ("", Some (ErrNoReplacement (Key v)))).
Proof.
  intros Hmiss. unfold Execute. split.
  - intros Hall.
    now rewrite (Execute_loop_emits r _ _ (mkBuilder "") (defaults_emit r _ Hmiss Hall)).
  - intros pre v post Hsplit Hpre Hdef. rewrite Hsplit in Hmiss |- *.
    rewrite Execute_loop_app.
    assert (Hmiss_pre : forall u, In (NVar u) pre -> snd (Get r (Key u)) = false).
    { intros u Hin. apply Hmiss. apply in_or_app. now left. }
    rewrite (Execute_loop_emits r _ _ (mkBuilder "") (defaults_emit r _ Hmiss_pre Hpre)).
    cbn [Execute_loop WriteTo].
    pose proof (Hmiss v ltac:(apply in_or_app; right; now left)) as Hv.
    destruct (Get r (Key v)) as [zero found] eqn:Hget. simpl in Hv. subst found.
    now rewrite (VarNode_WriteTo_resolve v r _ _ (Resolve_missing v r zero Hget Hdef)).
Qed.

Lemma Execute_nothing_found_witness :
  (forall v, In (NVar v) (Nodes greetingTemplate) ->
             snd (Get emptyReplacer (Key v)) = false) /\
  allHaveDefaults (Nodes greetingTemplate) /\
  Execute greetingTemplate emptyReplacer = ("Hello Hey!", None).
Proof.
  assert (Hmiss : forall v, In (NVar v) (Nodes greetingTemplate) ->
                            snd (Get emptyReplacer (Key v)) = false).
  { intros v _. reflexivity. }
  assert (Hall : allHaveDefaults (Nodes greetingTemplate)).
  { repeat constructor. }
  split; [exact Hmiss | split; [exact Hall|]].
  exact (proj1 (Execute_nothing_found greetingTemplate emptyReplacer Hmiss) Hall).
Defined.

Lemma find_none_all {A} (f : A -> bool) (l : list A) :
  (forall x, In x l -> f x = false) -> List.find f l = None.
Proof.
  induction l as [|x l IH]; intros Hall; [reflexivity|]. simpl.
  rewrite (Hall x (or_introl eq_refl)). apply IH. intros y Hy. apply Hall. now right.
Qed.

(** X22. In the interactive form a default is no longer exempt from the
    allowed values. [initModel] hands a non-empty default to the input,
    and Enter stores what the input then holds, unless that is empty. So
    when Enter is pressed on the form as [initModel] built it, a variable
    node with a non-empty default, the only one with its key, has its key
    found with the value the input made of the default: rendering checks
    that value against the allowed values, fails with [ErrInvalidValue]
    when it is not among them and writes it otherwise, where rendering
    with nothing found writes the default unchecked. Only an input that
    holds nothing after [SetValue] leaves the key not found. *)
Theorem form_default_is_validated
  (SetValue : string -> string) (tmpl : Template)
  (pre post : list VarNode) (v : VarNode) :
  varNodes (Nodes tmpl) = pre ++ v :: post ->
  Forall (fun u => Key u <> Key v) (pre ++ post) ->
  Default v <> "" ->
  HasDef v = true ->
  Get (ReplacerFuncFromMap
         (Bubble.Update_Enter (snd (Bubble.initModel SetValue tmpl)) ∅)) (Key v) =
    (if String.eqb (SetValue (Default v)) "" then ("", false)
     else (SetValue (Default v), true)) /\
  forall out : Builder,
    (SetValue (Default v) <> "" ->
     Choices v <> [] -> ~ In (SetValue (Default v)) (Choices v) ->
     VarNode_WriteTo v out
       (ReplacerFuncFromMap
          (Bubble.Update_Enter (snd (Bubble.initModel SetValue tmpl)) ∅)) =
       (out, Some (ErrInvalidValue (Key v) (SetValue (Default v)) (Choices v)))) /\
    (SetValue (Default v) <> "" ->
     Choices v = [] \/ In (SetValue (Default v)) (Choices v) ->
     VarNode_WriteTo v out
       (ReplacerFuncFromMap
          (Bubble.Update_Enter (snd (Bubble.initModel SetValue tmpl)) ∅)) =
       (mkBuilder (Builder_String out +:+ SetValue (Default v)), None)) /\
    (SetValue (Default v) = "" ->
     VarNode_WriteTo v out
       (ReplacerFuncFromMap
          (Bubble.Update_Enter (snd (Bubble.initModel SetValue tmpl)) ∅)) =
       (mkBuilder (Builder_String out +:+ Default v), None)) /\
    VarNode_WriteTo v out emptyReplacer =
      (mkBuilder (Builder_String out +:+ Default v), None).
Proof.
  intros Hvars Hother Hdef Hhas.
  assert (Hget : Get (ReplacerFuncFromMap
                        (Bubble.Update_Enter (snd (Bubble.initModel SetValue tmpl)) ∅))
                     (Key v) =
                 (if String.eqb (SetValue (Default v)) "" then ("", false)
                  else (SetValue (Default v), true))).
  { cbn [Get ReplacerFuncFromMap]. rewrite Update_Enter_lookup_from.
    unfold Bubble.initModel.
    destruct (initModel_loop_spec SetValue (fun _ => "") (Nodes tmpl) "" [] [] eq_refl)
      as (_ & -> & _).
    cbn [app]. rewrite Hvars, List.map_app. cbn [List.map].
    rewrite List.rev_app_distr. cbn [List.rev]. rewrite <- app_assoc. cbn [app].
    apply Forall_app in Hother as [Hpre Hpost].
    assert (Hskip : forall us, Forall (fun u => Key u <> Key v) us ->
              List.find (fun input => String.eqb (Bubble.Placeholder input) (Key v) &&
                                      negb (String.eqb (Bubble.Value input) ""))
                        (List.rev (List.map (Bubble.newInput SetValue) us)) = None).
    { intros us Hus. apply find_none_all. intros input Hin. apply List.in_rev in Hin.
      apply List.in_map_iff in Hin as (u & <- & Hu).
      rewrite List.Forall_forall in Hus. specialize (Hus u Hu).
      apply String.eqb_neq in Hus.
      unfold Bubble.newInput. destruct (negb (String.eqb (Default u) ""));
        cbn [Bubble.Placeholder]; now rewrite Hus. }
    rewrite find_app, (Hskip post Hpost).
    assert (Hinput : Bubble.newInput SetValue v =
                     Bubble.mkInput (Key v) (String.length (Default v) + 1)
                                    (SetValue (Default v))).
    { unfold Bubble.newInput. apply String.eqb_neq in Hdef. now rewrite Hdef. }
    cbn [List.find]. rewrite Hinput.
    cbn [negb Bubble.Placeholder Bubble.Value]. rewrite String.eqb_refl.
    destruct (String.eqb (SetValue (Default v)) ""); cbn [negb andb].
    - rewrite (Hskip pre Hpre). now rewrite lookup_empty.
    - reflexivity. }
  split; [exact Hget|].
  intros out. split; [|split; [|split]].
  - intros Hshown Hne Hnin. apply String.eqb_neq in Hshown. rewrite Hshown in Hget.
    exact (VarNode_WriteTo_resolve v _ out _ (Resolve_invalid v _ _ Hget Hne Hnin)).
  - intros Hshown Hin. apply String.eqb_neq in Hshown. rewrite Hshown in Hget.
    exact (VarNode_WriteTo_resolve v _ out _ (Resolve_found v _ _ Hget Hin)).
  - intros Hshown. rewrite Hshown in Hget. cbn [String.eqb] in Hget.
    exact (VarNode_WriteTo_resolve v _ out _ (Resolve_default v _ "" Hget Hhas)).
  - exact (VarNode_WriteTo_resolve v emptyReplacer out _
             (Resolve_default v emptyReplacer "" eq_refl Hhas)).
Qed.

(** The form of ["Hello {{.greeting:Hi|Hello|@Hey}}!"], with an input that
    keeps what it is given: Enter stores the default ["Hey"], which is not
    an allowed value, and the render fails. *)
Lemma form_default_is_validated_witness :
  varNodes (Nodes greetingTemplate) = [] ++ greetingNode :: [] /\
  Get (ReplacerFuncFromMap
         (Bubble.Update_Enter (snd (Bubble.initModel (fun s => s) greetingTemplate)) ∅))
      (Key greetingNode) = (Default greetingNode, true) /\
  VarNode_WriteTo greetingNode (mkBuilder "Hello ")
    (ReplacerFuncFromMap
       (Bubble.Update_Enter (snd (Bubble.initModel (fun s => s) greetingTemplate)) ∅)) =
    (mkBuilder "Hello ", Some (ErrInvalidValue "greeting" "Hey" ["Hi"; "Hello"])) /\
  Execute greetingTemplate
    (ReplacerFuncFromMap
       (Bubble.Update_Enter (snd (Bubble.initModel (fun s => s) greetingTemplate)) ∅)) =
    ("", Some (ErrInvalidValue "greeting" "Hey" ["Hi"; "Hello"])).
Proof.
  assert (Hvars : varNodes (Nodes greetingTemplate) = [] ++ greetingNode :: [])
    by reflexivity.
  assert (Hother : Forall (fun u => Key u <> Key greetingNode) ([] ++ []))
    by constructor.
  assert (Hdef : Default greetingNode <> "") by discriminate.
  destruct (form_default_is_validated (fun s => s) greetingTemplate [] []
              greetingNode Hvars Hother Hdef eq_refl) as [Hget Hrender].
  split; [exact Hvars|]. split; [exact Hget|]. split; [|reflexivity].
  apply (proj1 (Hrender (mkBuilder "Hello "))).
  - discriminate.
  - discriminate.
  - simpl. intros [E|[E|[]]]; discriminate E.
Defined.

(** ** Sinks that may fail *)

(** X23. A sink can make a render fail but cannot make it succeed.
    Whatever the sink, when [ExecuteTo] returns no error [Execute] returns
    none either, and when [Execute] returns an error so does [ExecuteTo],
    the same one or one of the sink's own from an earlier write. *)
Theorem ExecuteTo_any_sink {W} `{Writer W} (t : Template) (r : Replacer) (w : W) :
  (forall w', ExecuteTo t w r = (w', None) -> exists s, Execute t r = (s, None)) /\
  (forall s err,
      Execute t r = (s, Some err) ->
      exists w' err', ExecuteTo t w r = (w', Some err')).
Proof.
  assert (Hok : forall w', ExecuteTo t w r = (w', None) ->
                           exists s, Execute t r = (s, None)).
  { intros w' Hrun. exact (ExecuteTo_success_Execute r (Nodes t) w w' (mkBuilder "") Hrun). }
  split; [exact Hok|].
  intros s err Hfail. destruct (ExecuteTo t w r) as [w' [err'|]] eqn:Hrun.
  - now exists w', err'.
  - destruct (Hok w' eq_refl) as [s' Hs']. congruence.
Qed.

Lemma ExecuteTo_any_sink_witness :
  Execute greetingTemplate byeReplacer =
    ("", Some (ErrInvalidValue "greeting" "Bye" ["Hi"; "Hello"])) /\
  exists w' err',
    ExecuteTo greetingTemplate (mkLimited "" 3) byeReplacer = (w', Some err').
Proof.
  assert (Hfail : Execute greetingTemplate byeReplacer =
                  ("", Some (ErrInvalidValue "greeting" "Bye" ["Hi"; "Hello"])))
    by reflexivity.
  split; [exact Hfail|].
  exact (proj2 (ExecuteTo_any_sink greetingTemplate byeReplacer (mkLimited "" 3)) _ _ Hfail).
Defined.

(** A repository ready to commit: something staged on [main], nothing
    unstaged, and a commit command that succeeds. *)
Lemma Commit_ok_iff_witness :
  Git.Commit
    (fun args =>
       if decide (args = ["diff"; "--cached"; "--name-only"])
       then ("README.md" +:+ String (ascii_of_nat 10) "", None)
       else if decide (args = ["rev-parse"; "--abbrev-ref"; "HEAD"])
            then ("main", None)
            else ("", None))
    "fix: typo" = None.
Proof.
  apply (proj1 (Commit_ok_iff _ "fix: typo")).
  split; [reflexivity|].
  split; [eexists; split; [reflexivity | vm_compute; discriminate]|].
  split; [eexists; split; reflexivity|].
  split; [eexists; split; [reflexivity | vm_compute; discriminate]|].
  reflexivity.
Defined.

(** ** The empty default *)

(** C6. The empty string is a default of its own, told apart from no
    default by the flag. ["{{.key:@}}"] parses into a variable node whose
    default is present and empty, ["{{.key}}"] into one whose default is
    absent and empty. In general, for a marker body with the sigil:
    [parseToken] raises the flag exactly when some part after the [":"],
    trimmed, starts with ["@"]; a node without the flag has the empty
    default; and when the last such part is the bare ["@"] the default is
    present and empty. One turn of the loop over the parts sets the
    default present and empty on a bare ["@"] and leaves default and flag
    alone on a part that is no default. When the Replacer does not find
    the key, a node with the empty default present writes the empty string
    and succeeds, where the same node without a default fails with
    [ErrNoReplacement]. *)
Theorem empty_default_is_present :
  (ParseString "{{.key:@}}" =
     (Some (mkTemplate [NVar (mkVarNode "key" [] "" true)]), None) /\
   ParseString "{{.key}}" =
     (Some (mkTemplate [NVar (mkVarNode "key" [] "" false)]), None)) /\
  (forall (token body : string),
      TrimSpace token = varPrefix +:+ body ->
      exists v,
        parseToken token = inl (NVar v) /\
        (HasDef v = true <->
         exists idx part,
           Index body choiceSep = Some idx /\
           In part (Split (drop (idx + 1) body) choiceDelim) /\
           HasPrefix (TrimSpace part) defPrefix = true) /\
        (HasDef v = false -> Default v = "") /\
        (forall idx before part after,
            Index body choiceSep = Some idx ->
            Split (drop (idx + 1) body) choiceDelim = before ++ part :: after ->
            TrimSpace part = defPrefix ->
            Forall (fun p => HasPrefix (TrimSpace p) defPrefix = false) after ->
            HasDef v = true /\ Default v = "")) /\
  (forall (def part : string) (hasDef : bool) (choices : list string),
      (TrimSpace part = defPrefix ->
       parseToken_part (def, hasDef, choices) part = ("", true, choices)) /\
      (HasPrefix (TrimSpace part) defPrefix = false ->
       parseToken_part (def, hasDef, choices) part =
         (def, hasDef, choices ++ [TrimSpace part]))) /\
  (forall (r : Replacer) (zero : string),
      Get r "key" = (zero, false) ->
      Execute (mkTemplate [NVar (mkVarNode "key" [] "" true)]) r = ("", None) /\
      Execute (mkTemplate [NVar (mkVarNode "key" [] "" false)]) r =
        ("", Some (ErrNoReplacement "key"))) /\
  (forall W (HW : Writer W) (key : string) (choices : list string) (r : Replacer)
          (w : W) (zero : string),
      Get r key = (zero, false) ->
      VarNode_WriteTo (mkVarNode key choices "" true) w r = WriteString w "" /\
      VarNode_WriteTo (mkVarNode key choices "" false) w r =
        (w, Some (ErrNoReplacement key))).
Proof.
  split; [split; reflexivity|]. split; [|split; [|split]].
  - intros token body Htrim.
    assert (Hsig : hasSigil token = true).
    { unfold hasSigil. rewrite Htrim. now destruct body. }
    destruct (parseToken_sigil token Hsig) as [v Hv]. exists v. split; [exact Hv|].
    destruct (parseToken_shape token v Hv)
      as (body' & Htrim' & [[Hnone ->] | (idx & parts & Hidx & Hparts & ->)]);
      rewrite Htrim in Htrim';
      change (String "." body = String "." body') in Htrim'; injection Htrim' as <-;
      cbn [Key Choices Default HasDef].
    + split; [|split]; [split | reflexivity |].
      * discriminate.
      * intros (idx & part & Hidx & _). congruence.
      * intros idx before part after Hidx. congruence.
    + split; [|split].
      * rewrite List.existsb_exists. subst parts. split.
        -- intros (p & Hin & Hp). apply List.in_map_iff in Hin as (part & <- & Hin).
           now exists idx, part.
        -- intros (idx' & part & Hidx' & Hin & Hp).
           rewrite Hidx in Hidx'. injection Hidx' as <-.
           exists (TrimSpace part). split; [|exact Hp].
           apply List.in_map_iff. now exists part.
      * intros Hnone. now rewrite (filter_existsb_false _ _ Hnone).
      * intros idx' before part after Hidx' Hsplit Hbare Hafter.
        rewrite Hidx in Hidx'. injection Hidx' as <-.
        subst parts. rewrite Hsplit, List.map_app. cbn [List.map]. rewrite Hbare.
        rewrite List.existsb_app, List.filter_app. cbn [List.existsb List.filter].
        change (isDefaultPart defPrefix) with true. cbn [orb].
        rewrite orb_true_r. split; [reflexivity|].
        assert (Hnone : List.filter isDefaultPart (List.map TrimSpace after) = []).
        { clear Hsplit. induction Hafter as [|p after Hp Hafter IH]; [reflexivity|].
          cbn [List.map List.filter]. unfold isDefaultPart at 1. now rewrite Hp. }
        rewrite Hnone, List.map_app. cbn [List.map].
        now rewrite List.last_last.
  - intros def part hasDef choices. split.
    + intros Htrim. unfold parseToken_part. now rewrite Htrim.
    + intros Hno. unfold parseToken_part. now rewrite Hno.
  - intros r zero Hget. unfold Execute. simpl. unfold VarNode_WriteTo. simpl.
    now rewrite Hget.
  - intros W HW key choices r w zero Hget. split.
    + exact (VarNode_WriteTo_resolve (mkVarNode key choices "" true) r w _
               (Resolve_default (mkVarNode key choices "" true) r zero Hget eq_refl)).
    + exact (VarNode_WriteTo_resolve (mkVarNode key choices "" false) r w _
               (Resolve_missing (mkVarNode key choices "" false) r zero Hget eq_refl)).
Qed.

(** The body [".key: a | @"] has a bare default part after an allowed
    value: the default is present and empty. The body [".key: a"] has no
    default part: the default is absent. With the key not found the first
    node writes nothing and succeeds, and the second fails. *)
Lemma empty_default_is_present_witness :
  TrimSpace ".key: a | @" = varPrefix +:+ "key: a | @" /\
  (exists v,
      parseToken ".key: a | @" = inl (NVar v) /\ HasDef v = true /\ Default v = "") /\
  (exists v,
      parseToken ".key: a" = inl (NVar v) /\ HasDef v = false /\ Default v = "") /\
  Get emptyReplacer "key" = ("", false) /\
  Execute (mkTemplate [NVar (mkVarNode "key" [] "" true)]) emptyReplacer =
    ("", None) /\
  Execute (mkTemplate [NVar (mkVarNode "key" [] "" false)]) emptyReplacer =
    ("", Some (ErrNoReplacement "key")).
Proof.
  assert (Htrim : TrimSpace ".key: a | @" = varPrefix +:+ "key: a | @") by reflexivity.
  assert (Htrim' : TrimSpace ".key: a" = varPrefix +:+ "key: a") by reflexivity.
  assert (Hget : Get emptyReplacer "key" = ("", false)) by reflexivity.
  destruct empty_default_is_present as (_ & Hparse & _ & Hrender & _).
  split; [exact Htrim|]. split; [|split].
  - destruct (Hparse ".key: a | @" "key: a | @" Htrim) as (v & Hv & _ & _ & Hbare).
    exists v. split; [exact Hv|].
    apply (Hbare 3 [" a "] " @" []); [reflexivity | reflexivity | reflexivity | constructor].
  - destruct (Hparse ".key: a" "key: a" Htrim') as (v & Hv & Hiff & Hempty & _).
    exists v. split; [exact Hv|].
    assert (Hflag : HasDef v = false).
    { destruct (HasDef v); [|reflexivity].
      destruct (proj1 Hiff eq_refl) as (idx & part & Hidx & Hin & Hp).
      injection Hidx as <-. destruct Hin as [<- | []]. discriminate Hp. }
    split; [exact Hflag | exact (Hempty Hflag)].
  - split; [exact Hget|]. exact (Hrender emptyReplacer "" Hget).
Defined.

(** ** Unterminated markers *)

Lemma scanEnd_step (data : string) (pos : nat) :
  scanEnd data pos =
  match findNextTemplate data pos with
  | (_, _, false) => pos
  | (_, end_, true) => scanEnd data end_
  end.
Proof.
  simp scanEnd.
  destruct (inspect (findNextTemplate data pos)) as [[[start end_] [|]] H];
    simpl; rewrite H; reflexivity.
Qed.

(** The scan only moves forward. *)
Lemma scanEnd_le (data : string) (n pos : nat) :
  String.length data - pos < n -> pos <= scanEnd data pos.
Proof.
  revert pos. induction n as [|n IH]; intros pos Hn; [lia|].
  rewrite scanEnd_step.
  destruct (findNextTemplate data pos) as [[start end_] [|]] eqn:Hfind; [|lia].
  pose proof (findNextTemplate_range _ _ _ _ Hfind) as Hrange.
  specialize (IH end_ ltac:(lia)). lia.
Qed.

(** The scan ends where the scanner finds no marker. *)
Lemma scanEnd_stops (data : string) (n pos : nat) :
  String.length data - pos < n ->
  findNextTemplate data (scanEnd data pos) = (0, 0, false).
Proof.
  revert pos. induction n as [|n IH]; intros pos Hn; [lia|]. rewrite scanEnd_step.
  destruct (findNextTemplate data pos) as [[start end_] [|]] eqn:Hfind.
  - pose proof (findNextTemplate_range _ _ _ _ Hfind). apply IH. lia.
  - rewrite Hfind. revert Hfind. unfold findNextTemplate.
    destruct (Index (drop pos data) openMarker) as [o|]; [|now intros [= <- <-]].
    destruct (Index _ closeMarker) as [c|]; [discriminate | now intros [= <- <-]].
Qed.

(** The scan never steps over an opening marker that no closing marker
    follows: it ends at or before it. *)
Lemma scanEnd_unterminated (data : string) (i n pos : nat) :
  HasPrefix (drop i data) openMarker = true ->
  Index (drop (i + 2) data) closeMarker = None ->
  String.length data - pos < n ->
  pos <= i ->
  scanEnd data pos <= i.
Proof.
  intros Hopen Hnoclose. revert pos.
  induction n as [|n IH]; intros pos Hn Hpos; [lia|].
  rewrite scanEnd_step.
  destruct (findNextTemplate data pos) as [[start end_] [|]] eqn:Hfind; [|exact Hpos].
  pose proof (findNextTemplate_range _ _ _ _ Hfind) as Hrange.
  destruct (findNextTemplate_found _ _ _ _ Hfind) as (o & c & _ & _ & Hc & ->).
  apply IH; [lia|].
  apply Index_HasPrefix in Hc. rewrite drop_drop in Hc.
  destruct (markers_apart data i (start + 2 + c) Hopen Hc) as [Hle | Hge]; [lia|].
  pose proof (Index_None _ _ (start + 2 + c - (i + 2)) Hnoclose) as Hnone.
  rewrite drop_drop in Hnone.
  replace (i + 2 + (start + 2 + c - (i + 2))) with (start + 2 + c) in Hnone by lia.
  congruence.
Qed.

(** *** The scanner on a prefix of the text *)

Lemma take_take (a b : nat) (s : string) : a <= b -> take a (take b s) = take a s.
Proof.
  revert b s. induction a as [|a IH]; intros b s Hab; [reflexivity|].
  destruct b as [|b]; [lia|]. destruct s as [|c s]; [reflexivity|].
  cbn [take]. f_equal. apply IH. lia.
Qed.

Lemma slice_take (data : string) (p lo hi : nat) :
  hi <= p -> slice (take p data) lo hi = slice data lo hi.
Proof.
  intros Hp. unfold slice. rewrite drop_take. apply take_take. lia.
Qed.

Lemma HasPrefix_take_intro (n : nat) (s p : string) :
  HasPrefix s p = true -> String.length p <= n -> HasPrefix (take n s) p = true.
Proof.
  unfold HasPrefix. revert n s. induction p as [|c p IH]; intros n s.
  - intros _ _. now destruct (take n s).
  - destruct s as [|d s]; simpl; [discriminate|].
    destruct (Ascii.ascii_dec c d) as [->|]; [|discriminate].
    intros E Hn. destruct n as [|n]; [lia|]. simpl.
    destruct (Ascii.ascii_dec d d); [|contradiction]. apply IH; [exact E | lia].
Qed.

(** An occurrence that lies within a prefix is found in the prefix, at the
    same offset. *)
Lemma Index_take_Some (s sep : string) (k n : nat) :
  Index s sep = Some k -> k + String.length sep <= n ->
  Index (take n s) sep = Some k.
Proof.
  intros Hk Hn.
  assert (Hat : HasPrefix (drop k (take n s)) sep = true).
  { rewrite drop_take. apply HasPrefix_take_intro; [now apply Index_HasPrefix | lia]. }
  destruct (Index_leftmost _ _ _ Hat) as (k' & Hk' & Hle).
  destruct (Nat.eq_dec k' k) as [->|Hne]; [exact Hk'|].
  apply Index_HasPrefix in Hk'. rewrite drop_take in Hk'. apply HasPrefix_take in Hk'.
  rewrite (Index_first s sep k k' Hk) in Hk'; [discriminate | lia].
Qed.

(** A marker found in the text is found, the same, in every prefix of the
    text that holds it. *)
Lemma findNextTemplate_take (data : string) (p pos start end_ : nat) :
  findNextTemplate data pos = (start, end_, true) ->
  end_ <= p ->
  findNextTemplate (take p data) pos = (start, end_, true).
Proof.
  intros Hfind Hp.
  destruct (findNextTemplate_found _ _ _ _ Hfind) as (o & c & Ho & -> & Hc & ->).
  unfold findNextTemplate. rewrite drop_take.
  rewrite (Index_take_Some _ _ o (p - pos) Ho)
    by (change (String.length openMarker) with 2; lia).
  change (String.length openMarker) with 2. rewrite drop_take.
  rewrite (Index_take_Some _ _ c (p - (o + pos + 2)) Hc)
    by (change (String.length closeMarker) with 2; lia).
  reflexivity.
Qed.

(** The parse of a text in which no token is rejected is the parse of the
    text up to the end of its last marker, followed by the rest as one
    literal, if there is a rest. *)
Lemma ParseString_loop_scanEnd (data : string) (n pos : nat) (nodes : list Node) :
  String.length data - pos < n ->
  Forall (fun token => hasSigil token = true) (markerBodies data pos) ->
  exists mid,
    ParseString_loop (take (scanEnd data pos) data) pos nodes =
      (Some (mkTemplate (nodes ++ mid)), None) /\
    ParseString_loop data pos nodes =
      (Some (mkTemplate
               ((nodes ++ mid) ++
                if 0 <? String.length (drop (scanEnd data pos) data)
                then [NText (mkTextNode (drop (scanEnd data pos) data))]
                else [])), None) /\
    (mid = [] /\ scanEnd data pos = pos \/ exists mid' v, mid = mid' ++ [NVar v]).
Proof.
  revert pos nodes. induction n as [|n IH]; intros pos nodes Hn Hall; [lia|].
  rewrite markerBodies_step in Hall. rewrite scanEnd_step.
  rewrite (ParseString_loop_step data pos).
  destruct (findNextTemplate data pos) as [[start end_] [|]] eqn:Hfind.
  - pose proof (findNextTemplate_range _ _ _ _ Hfind) as Hrange.
    pose proof (scanEnd_le data n end_ ltac:(lia)) as Hle.
    apply Forall_cons_iff in Hall as [Hsig Hall].
    destruct (parseToken_sigil _ Hsig) as [v Hv]. rewrite Hv.
    rewrite ParseString_loop_step.
    rewrite (findNextTemplate_take data (scanEnd data end_) pos start end_ Hfind Hle).
    rewrite !slice_take by lia. rewrite Hv.
    set (nodes' := if pos <? start
                   then nodes ++ [NText (mkTextNode (slice data pos start))]
                   else nodes).
    destruct (IH end_ (nodes' ++ [NVar v]) ltac:(lia) Hall) as (mid & Hpre & Hrun & Hlast).
    assert (Hnodes' : exists lit, nodes' = nodes ++ lit).
    { subst nodes'. destruct (pos <? start); eexists; [reflexivity|].
      symmetry. apply app_nil_r. }
    destruct Hnodes' as [lit Hlit].
    exists (lit ++ [NVar v] ++ mid).
    replace (nodes ++ lit ++ [NVar v] ++ mid) with ((nodes' ++ [NVar v]) ++ mid)
      by (rewrite Hlit; now rewrite <- !app_assoc).
    split; [exact Hpre|]. split; [exact Hrun|]. right.
    destruct Hlast as [[-> _] | (mid' & u & ->)].
    + exists lit, v. now rewrite app_nil_r.
    + exists (lit ++ [NVar v] ++ mid'), u. now rewrite <- !app_assoc.
  - exists []. rewrite app_nil_r. split; [|split; [|now left]].
    + rewrite ParseString_loop_step. unfold findNextTemplate.
      rewrite !drop_take, Nat.sub_diag. cbn [take]. reflexivity.
    + destruct (0 <? String.length (drop pos data)); [reflexivity|].
      now rewrite app_nil_r.
Qed.

(** C2, as the claim states it, fails: in ["{{x}}{{"] the opening marker at
    offset 5 has no closing marker after it, and parsing fails, on the
    closed marker before it. *)
Lemma unterminated_marker_counterexample :
  HasPrefix (drop 5 "{{x}}{{") openMarker = true /\
  Index (drop (5 + 2) "{{x}}{{") closeMarker = None /\
  ParseString "{{x}}{{" = (None, Some (ErrInvalidTokenSyntax "x")).
Proof. repeat split; reflexivity. Qed.

(** C2, amended. An opening marker with no closing marker after it is not
    an error, provided the scan reaches it. When the input has an opening
    marker at offset [i] with no closing marker anywhere after it, and
    every closed marker the scanner meets has the sigil, parsing succeeds.
    The scan ends at the offset [scanEnd data 0], which is not after [i]:
    the end of the last closed marker, or the start of the input when
    there is none. The nodes are those the text before that offset parses
    to (none, or a list that ends with the variable node of the last
    closed marker) followed by one literal, the text from that offset to
    the end, the unmatched opening marker included; rendering writes that
    text verbatim after what the nodes before it rendered. *)
Theorem unterminated_marker_is_literal (data : string) (i : nat) :
  HasPrefix (drop i data) openMarker = true ->
  Index (drop (i + 2) data) closeMarker = None ->
  Forall (fun token => hasSigil token = true) (markerBodies data 0) ->
  exists pre,
    scanEnd data 0 <= i /\
    findNextTemplate data (scanEnd data 0) = (0, 0, false) /\
    (markerBodies data 0 = [] -> pre = [] /\ scanEnd data 0 = 0) /\
    (pre = [] /\ scanEnd data 0 = 0 \/ exists pre' v, pre = pre' ++ [NVar v]) /\
    ParseString (take (scanEnd data 0) data) = (Some (mkTemplate pre), None) /\
    ParseString data =
      (Some (mkTemplate (pre ++ [NText (mkTextNode (drop (scanEnd data 0) data))])),
       None) /\
    forall (r : Replacer) (rendered : string),
      Execute (mkTemplate pre) r = (rendered, None) ->
      Execute (mkTemplate (pre ++ [NText (mkTextNode (drop (scanEnd data 0) data))])) r =
        (rendered +:+ drop (scanEnd data 0) data, None).
Proof.
  intros Hopen Hnoclose Hall.
  pose proof (scanEnd_unterminated data i (S (String.length data)) 0
                Hopen Hnoclose ltac:(lia) ltac:(lia)) as Hle.
  destruct (ParseString_loop_scanEnd data (S (String.length data)) 0 [] ltac:(lia) Hall)
    as (pre & Hpre & Hrun & Hlast).
  cbn [app] in Hpre, Hrun.
  exists pre. split; [exact Hle|]. split; [|split; [|split; [exact Hlast|]]].
  - apply (scanEnd_stops data (S (String.length data))). lia.
  - intros Hnil. rewrite markerBodies_step in Hnil.
    destruct Hlast as [Hfirst | (pre' & v & ->)]; [exact Hfirst|].
    exfalso. revert Hpre Hnil. rewrite scanEnd_step.
    destruct (findNextTemplate data 0) as [[start end_] [|]] eqn:Hfind; [discriminate|].
    intros Hpre _. unfold ParseString in Hpre. rewrite ParseString_loop_step in Hpre.
    unfold findNextTemplate in Hpre. cbn in Hpre.
    injection Hpre as Hpre. now destruct pre'.
  - split; [exact Hpre|].
    assert (Hrest : (0 <? String.length (drop (scanEnd data 0) data)) = true).
    { apply Nat.ltb_lt. apply HasPrefix_length in Hopen.
      rewrite length_drop in *. simpl in Hopen. lia. }
    rewrite Hrest in Hrun. split; [exact Hrun|].
    intros r rendered. apply Execute_loop_app_text.
Qed.

(** In ["{{.a}} and {{.name"] the scanner meets one closed marker, which
    ends at offset 6; the opening marker at offset 11 is never closed. The
    text before offset 6 parses to the variable node of the marker, and the
    rest is the final literal. *)
Lemma unterminated_marker_is_literal_witness :
  HasPrefix (drop 11 "{{.a}} and {{.name") openMarker = true /\
  Index (drop (11 + 2) "{{.a}} and {{.name") closeMarker = None /\
  scanEnd "{{.a}} and {{.name" 0 = 6 /\
  ParseString "{{.a}} and {{.name" =
    (Some (mkTemplate [NVar (mkVarNode "a" [] "" false);
                       NText (mkTextNode " and {{.name")]), None) /\
  exists pre,
    ParseString (take 6 "{{.a}} and {{.name") = (Some (mkTemplate pre), None) /\
    ParseString "{{.a}} and {{.name" =
      (Some (mkTemplate (pre ++ [NText (mkTextNode (drop 6 "{{.a}} and {{.name"))])),
       None).
Proof.
  assert (Hopen : HasPrefix (drop 11 "{{.a}} and {{.name") openMarker = true)
    by reflexivity.
  assert (Hnoclose : Index (drop (11 + 2) "{{.a}} and {{.name") closeMarker = None)
    by reflexivity.
  assert (Hall : Forall (fun token => hasSigil token = true)
                        (markerBodies "{{.a}} and {{.name" 0))
    by (vm_compute; repeat constructor).
  assert (Hend : scanEnd "{{.a}} and {{.name" 0 = 6) by reflexivity.
  split; [exact Hopen | split; [exact Hnoclose | split; [exact Hend|]]].
  split; [reflexivity|].
  destruct (unterminated_marker_is_literal "{{.a}} and {{.name" 11 Hopen Hnoclose Hall)
    as (pre & _ & _ & _ & _ & Hpre & Hrun & _).
  rewrite Hend in Hpre, Hrun. exists pre. split; [exact Hpre | exact Hrun].
Defined.
